(** * The matching engine of the [peg] package ([peg/language.go])

    A shallow embedding of the lexer combinators of [peg/language.go] and of
    the [Language] facade, followed by the properties of the matching engine.

    Conventions of the embedding.
    - Go's [int] is a 64-bit two's complement integer: positions and consumed
      lengths are [Z], and every [+] and [-] of the source is written with
      its wrap-around ([int_add], [int_sub]).
    - A [*ParseTree] and an [error] may be [nil]: both are [option]s.
    - A [[]byte] is a [list byte]; the nil slice and the empty slice are both
      [[]] (Go's [len] and [range] do not tell them apart, and the package
      never compares a [Data] field with [nil]).
    - A call can return, panic (a slice expression out of range, a call of a
      nil [Lexer]) or loop for ever ([for { ... }] in the two closures): the
      result of a call is a [run], and every lexer takes the number of loop
      iterations it may spend (its fuel). *)

From Stdlib Require Import ZArith List String Bool Lia.
From Stdlib.Strings Require Import Byte.
Import ListNotations.
Local Open Scope Z_scope.

Set Implicit Arguments.
#[local] Set Warnings "-register-all".

(** ** Machine integers *)

Module Int.

Definition bits : Z := 64.
Definition modulus : Z := 2 ^ bits.
Definition half : Z := 2 ^ (bits - 1).

(** The value of a mathematical integer once stored in an [int]. *)
Definition wrap (z : Z) : Z := (z + half) mod modulus - half.

Definition add (a b : Z) : Z := wrap (a + b).
Definition sub (a b : Z) : Z := wrap (a - b).

Definition in_range (z : Z) : Prop := - half <= z < half.

End Int.

Definition int_add : Z -> Z -> Z := Int.add.
Definition int_sub : Z -> Z -> Z := Int.sub.

(** [len(x)] of a slice. *)
Definition len {A : Type} (l : list A) : Z := Z.of_nat (List.length l).

(** ** Outcomes of a call *)

Inductive run (A : Type) : Type :=
| Ret (a : A)
| Panic
| OutOfFuel.

Arguments Ret {A} a.
Arguments Panic {A}.
Arguments OutOfFuel {A}.

Definition bind {A B : Type} (m : run A) (k : A -> run B) : run B :=
  match m with
  | Ret a => k a
  | Panic => Panic
  | OutOfFuel => OutOfFuel
  end.

Notation "x <- m ;; k" := (bind m (fun x => k))
  (at level 61, m at next level, right associativity).
Notation "' p <- m ;; k" := (bind m (fun x => match x with p => k end))
  (at level 61, p pattern, m at next level, right associativity).

(** ** Data model *)

(** The value of an [error].  The lexers build theirs with
    [errors.New(fmt.Sprintf(...))]; the formatted text is kept as its
    arguments: what was expected and the neighbourhood of the input. *)
Inductive error : Type :=
| ExpectedLiteral (valid : string) (neighborhood : list byte)
| ExpectedRegexMatch (pattern : string) (neighborhood : list byte)
| OtherError (msg : string).

(** Modelled from the spec: the type [ParseTree], declared outside
    [language.go]: "(typeLabel: string, rawBytes: optional byte slice,
    children: ordered list of ParseTree)".  The source fills [Children] with
    a [[]*ParseTree], so that an entry may be a nil pointer. *)
Inductive ParseTree : Type :=
  mkParseTree {
      Typ : string;
      Data : list byte;
      Children : list (option ParseTree)
    }.

(** Modelled from the spec: the type [Source], declared outside
    [language.go]; the lexers read its field [buf]. *)
Record Source : Type := mkSource { buf : list byte }.

(** What a [Lexer] returns: the parse tree, an error and the number of input
    bytes consumed. *)
Definition LexResult : Type := (option ParseTree * option error * Z)%type.

Definition LexFn : Type := nat -> Source -> Z -> run LexResult.

Inductive Lexeme : Type :=
  mkLexeme {
      Name : string;
      Dependencies : list Lexeme;
      isResolved : bool;
      Lexer : option LexFn
    }.

(** [l.Lexer(s, pos)]: calling a nil function value panics. *)
Definition call (l : Lexeme) : LexFn :=
  fun fuel s pos =>
    match Lexer l with
    | Some f => f fuel s pos
    | None => Panic
    end.

(** ** Slices of the buffer *)

(** [b[lo:hi]], which panics unless [0 <= lo <= hi <= len(b)]. *)
Definition slice (b : list byte) (lo hi : Z) : run (list byte) :=
  if (0 <=? lo) && (lo <=? hi) && (hi <=? len b)
  then Ret (firstn (Z.to_nat (hi - lo)) (skipn (Z.to_nat lo) b))
  else Panic.

Fixpoint has_prefix (p b : list byte) : bool :=
  match p, b with
  | [], _ => true
  | x :: p', y :: b' => Byte.eqb x y && has_prefix p' b'
  | _ :: _, [] => false
  end.

(** Modelled from the spec: the method [Source.ConsumeLiteral], defined
    outside [language.go]: "succeeds iff the buffer's bytes starting at [pos]
    exactly equal [bytes]; returns the matched slice and its length, or no
    match (not an exception)".  [None] is the nil slice of "no match". *)
Definition ConsumeLiteral (s : Source) (lit : list byte) (pos : Z)
  : option (list byte) :=
  if (0 <=? pos) && (pos <=? len (buf s))
     && has_prefix lit (skipn (Z.to_nat pos) (buf s))
  then Some lit
  else None.

(** A compiled [*regexp.Regexp], as far as the package uses one: its source
    text ([String()]) and the length of its match anchored at the start of
    the bytes it is given, if there is one. *)
Record Regexp : Type :=
  mkRegexp {
      re_String : string;
      re_match_prefix : list byte -> option nat
    }.

(** Modelled from the spec: the method [Source.Consume], defined outside
    [language.go]: "succeeds iff the pattern matches the bytes starting at
    [pos]; [...] anchored, never scanning forward to find a later match.
    Returns the matched slice and length, or no match". *)
Definition Consume (s : Source) (valid : Regexp) (pos : Z)
  : option (list byte) :=
  if (0 <=? pos) && (pos <=? len (buf s))
  then
    let rest := skipn (Z.to_nat pos) (buf s) in
    match re_match_prefix valid rest with
    | Some n => if (n <=? List.length rest)%nat then Some (firstn n rest) else None
    | None => None
    end
  else None.

(** ** The lexers of [language.go] *)

(** [s.buf[neighborhood:neighborEnd]], the at most ten bytes at [pos] that
    the literal and the regexp lexer put in their error. *)
Definition neighborhood_of (s : Source) (pos : Z) : run (list byte) :=
  let neighborhood := pos in
  let neighborEnd := int_add pos 10 in
  let neighborEnd :=
    if len (buf s) <? neighborEnd then len (buf s) else neighborEnd in
  slice (buf s) neighborhood neighborEnd.

Definition NewLiteralLexer (typ valid : string) : Lexeme :=
  let vbytes := list_byte_of_string valid in
  {| Name := typ;
     Dependencies := [];
     isResolved := false;
     Lexer := Some (fun _ s pos =>
       match ConsumeLiteral s vbytes pos with
       | None =>
           nb <- neighborhood_of s pos ;;
           Ret (None, Some (ExpectedLiteral valid nb), 0)
       | Some match_ =>
           Ret (Some {| Typ := typ; Data := vbytes; Children := [] |},
                None, len match_)
       end) |}.

Definition NewRegexpLexer (typ : string) (valid : Regexp) : Lexeme :=
  {| Name := typ;
     Dependencies := [];
     isResolved := false;
     Lexer := Some (fun _ s pos =>
       match Consume s valid pos with
       | None =>
           nb <- neighborhood_of s pos ;;
           Ret (None, Some (ExpectedRegexMatch (re_String valid) nb), 0)
       | Some match_ =>
           Ret (Some {| Typ := typ; Data := match_; Children := [] |},
                None, len match_)
       end) |}.

Definition NewRuleLexer (rule : string) : Lexeme :=
  {| Name := String.append "~" rule;
     Dependencies := [];
     isResolved := false;
     Lexer := None |}.

(** The [for _, dep := range deps] loop of the concatenation lexer and the
    statements after it; [children] and [offset] are the loop's variables. *)
Fixpoint concat_loop (name : string) (deps : list Lexeme)
  (fuel : nat) (s : Source) (pos : Z)
  (children : list (option ParseTree)) (offset : Z) : run LexResult :=
  match deps with
  | [] =>
      if len children =? 1
      then Ret (nth 0 children None, None, offset)
      else Ret (Some {| Typ := name; Data := []; Children := children |},
                None, offset)
  | dep :: deps' =>
      '(tree, err, l) <- call dep fuel s (int_add pos offset) ;;
      match err with
      | Some e => Ret (None, Some e, 0)
      | None =>
          let children :=
            match tree with
            | Some _ => children ++ [tree]
            | None => children
            end in
          concat_loop name deps' fuel s pos children (int_add offset l)
      end
  end.

Definition NewConcatLexer (name : string) (deps : list Lexeme) : Lexeme :=
  {| Name := name;
     Dependencies := deps;
     isResolved := false;
     Lexer := Some (fun fuel s pos => concat_loop name deps fuel s pos [] 0) |}.

(** [resp.Children = append(resp.Children, next)] *)
Definition append_child (resp : ParseTree) (next : option ParseTree)
  : ParseTree :=
  {| Typ := Typ resp; Data := Data resp; Children := Children resp ++ [next] |}.

(** The [for { ... }] loop of the two closures, which is the same text in
    both: call the child at [pos], leave at its first error, otherwise append
    its tree and advance.  It runs for at most [n] iterations, and gives the
    loop's variables [resp] and [pos] when it leaves. *)
Fixpoint closure_loop (n : nat) (lexer : Source -> Z -> run LexResult)
  (s : Source) (pos : Z) (resp : ParseTree) : run (ParseTree * Z) :=
  match n with
  | O => OutOfFuel
  | S n' =>
      '(next, err, off) <- lexer s pos ;;
      match err with
      | Some _ => Ret (resp, pos)
      | None =>
          closure_loop n' lexer s (int_add pos off) (append_child resp next)
      end
  end.

Definition NewPlusClosure (lex : Lexeme) : Lexeme :=
  {| Name := String.append (Name lex) "+";
     Dependencies := [lex];
     isResolved := false;
     Lexer := Some (fun fuel s pos =>
       let start := pos in
       let resp :=
         {| Typ := String.append (Name lex) "+"; Data := []; Children := [] |} in
       '(next, err, off) <- call lex fuel s pos ;;
       match err with
       | Some e => Ret (None, Some e, 0)
       | None =>
           let resp := append_child resp next in
           let pos := int_add pos off in
           '(resp, pos) <- closure_loop fuel (call lex fuel) s pos resp ;;
           Ret (Some resp, None, int_sub pos start)
       end) |}.

Definition NewStarClosure (lex : Lexeme) : Lexeme :=
  {| Name := String.append (Name lex) "*";
     Dependencies := [lex];
     isResolved := false;
     Lexer := Some (fun fuel s pos =>
       let start := pos in
       let resp :=
         {| Typ := String.append (Name lex) "*"; Data := []; Children := [] |} in
       '(resp, pos) <- closure_loop fuel (call lex fuel) s pos resp ;;
       Ret (Some resp, None, int_sub pos start)) |}.

Definition NewOptionClosure (lex : Lexeme) : Lexeme :=
  {| Name := String.append (Name lex) "?";
     Dependencies := [lex];
     isResolved := false;
     Lexer := Some (fun fuel s pos =>
       '(tree, _, offset) <- call lex fuel s pos ;;
       Ret (tree, None, offset)) |}.

Definition NewAlternateLexer (name : string) (lhs rhs : Lexeme) : Lexeme :=
  {| Name := name;
     Dependencies := [lhs; rhs];
     isResolved := false;
     Lexer := Some (fun fuel s pos =>
       '(tree, err, off) <- call lhs fuel s pos ;;
       match err with
       | None => Ret (tree, None, off)
       | Some _ =>
           '(tree, err, off) <- call rhs fuel s pos ;;
           match err with
           | Some e => Ret (None, Some e, 0)
           | None => Ret (tree, None, off)
           end
       end) |}.

Definition NewDiscardLexer (lex : Lexeme) : Lexeme :=
  {| Name := String.append (Name lex) "^";
     Dependencies := [lex];
     isResolved := false;
     Lexer := Some (fun fuel s pos =>
       '(_, _, offset) <- call lex fuel s pos ;;
       Ret (None, None, offset)) |}.

(** ** The [Language] facade *)

Record Language : Type := mkLanguage { root : Lexeme }.

(** An [io.Reader], as far as [NewSource] uses one: the bytes it delivers
    and the error, if any, that ends the reading. *)
Record Reader : Type :=
  mkReader {
      contents : list byte;
      read_error : option error
    }.

(** [strings.NewReader(source)] *)
Definition strings_NewReader (source : string) : Reader :=
  {| contents := list_byte_of_string source; read_error := None |}.

(** Modelled from the spec: the function [NewSource], defined outside
    [language.go]: "constructed once from a readable input source,
    materializing its full contents into an addressable byte sequence (fails
    with an I/O error if the underlying read fails)". *)
Definition NewSource (source : Reader) : option Source * option error :=
  match read_error source with
  | Some e => (None, Some e)
  | None => (Some {| buf := contents source |}, None)
  end.

(** What [Parse] and [ParseString] return. *)
Definition ParseResult : Type := (option ParseTree * option error)%type.

Definition Parse (l : Language) (fuel : nat) (source : Reader)
  : run ParseResult :=
  let '(s, err) := NewSource source in
  match err with
  | Some e => Ret (None, Some e)
  | None =>
      match s with
      | None => Panic
      | Some s =>
          '(tree, err, _) <- call (root l) fuel s 0 ;;
          Ret (tree, err)
      end
  end.

Definition ParseString (l : Language) (fuel : nat) (source : string)
  : run ParseResult :=
  Parse l fuel (strings_NewReader source).

(** ** Notions used by the statements *)

(** The input of [ParseString]. *)
Definition source_of (input : string) : Source :=
  {| buf := list_byte_of_string input |}.

(** A lexer fails cleanly when each of its returns with a non-nil error has a
    nil tree and a consumed length of 0. *)
Definition fails_clean (l : Lexeme) : Prop :=
  forall fuel s pos tree e n,
    call l fuel s pos = Ret (tree, Some e, n) -> tree = None /\ n = 0.

(** The lexers that the constructors of [language.go] build from one
    another. *)
Inductive built : Lexeme -> Prop :=
| built_literal typ valid : built (NewLiteralLexer typ valid)
| built_regexp typ valid : built (NewRegexpLexer typ valid)
| built_concat name deps : all_built deps -> built (NewConcatLexer name deps)
| built_plus lex : built lex -> built (NewPlusClosure lex)
| built_star lex : built lex -> built (NewStarClosure lex)
| built_option lex : built lex -> built (NewOptionClosure lex)
| built_alternate name lhs rhs :
    built lhs -> built rhs -> built (NewAlternateLexer name lhs rhs)
| built_discard lex : built lex -> built (NewDiscardLexer lex)
with all_built : list Lexeme -> Prop :=
| all_built_nil : all_built []
| all_built_cons dep deps :
    built dep -> all_built deps -> all_built (dep :: deps).

Scheme built_mut := Induction for built Sort Prop
  with all_built_mut := Induction for all_built Sort Prop.

(** The successive matches of a repetition: from [pos] the child succeeds
    with the trees and lengths of [matches], each attempt made where the one
    before stopped, and it fails at [final]. *)
Inductive reps (lexer : Source -> Z -> run LexResult) (s : Source)
  : Z -> list (option ParseTree * Z) -> Z -> Prop :=
| reps_stop pos tree e off :
    lexer s pos = Ret (tree, Some e, off) ->
    reps lexer s pos [] pos
| reps_more pos tree off matches final :
    lexer s pos = Ret (tree, None, off) ->
    reps lexer s (int_add pos off) matches final ->
    reps lexer s pos ((tree, off) :: matches) final.

(** The sum of consumed lengths. *)
Definition sumZ (l : list Z) : Z := fold_right Z.add 0 l.

(** The children of a concatenation all succeed: each one is called at
    [pos] plus the lengths consumed before it, [offset] on entry and [total]
    at the end, and [results] are the trees and lengths they return. *)
Inductive concat_succeeds (fuel : nat) (s : Source) (pos : Z)
  : list Lexeme -> Z -> list (option ParseTree * Z) -> Z -> Prop :=
| concat_succeeds_nil offset : concat_succeeds fuel s pos [] offset [] offset
| concat_succeeds_cons dep deps offset tree l results total :
    call dep fuel s (int_add pos offset) = Ret (tree, None, l) ->
    concat_succeeds fuel s pos deps (int_add offset l) results total ->
    concat_succeeds fuel s pos (dep :: deps) offset ((tree, l) :: results) total.

(** Some child of a concatenation fails with [e], those before it having
    succeeded. *)
Inductive concat_fails (fuel : nat) (s : Source) (pos : Z)
  : list Lexeme -> Z -> error -> Prop :=
| concat_fails_here dep deps offset tree e l :
    call dep fuel s (int_add pos offset) = Ret (tree, Some e, l) ->
    concat_fails fuel s pos (dep :: deps) offset e
| concat_fails_later dep deps offset tree l e :
    call dep fuel s (int_add pos offset) = Ret (tree, None, l) ->
    concat_fails fuel s pos deps (int_add offset l) e ->
    concat_fails fuel s pos (dep :: deps) offset e.

(** The trees that the children contributed: the non-nil ones, in order. *)
Definition contributed (results : list (option ParseTree * Z))
  : list (option ParseTree) :=
  filter (fun t => match t with Some _ => true | None => false end)
         (map fst results).

(** A single contributed tree stands for the concatenation; otherwise the
    trees are wrapped in a node named after it. *)
Definition single_or_node (name : string) (children : list (option ParseTree))
  : option ParseTree :=
  match children with
  | [tree] => tree
  | _ => Some {| Typ := name; Data := []; Children := children |}
  end.

(** The invariant of the data model as the specification words it: a node
    with children has empty raw bytes, a leaf has non-empty raw bytes, and no
    entry of a child list is missing. *)
Fixpoint spec_invariant (t : ParseTree) : bool :=
  match t with
  | mkParseTree _ data children =>
      match children with
      | [] => negb (len data =? 0)
      | _ :: _ => len data =? 0
      end
      && forallb (fun c => match c with
                           | Some t' => spec_invariant t'
                           | None => false
                           end) children
  end.

(** The part of it that the lexers keep: throughout the tree, a node with
    children has empty raw bytes, and no entry of a child list is missing.
    Only the raw bytes of the leaves are left free. *)
Fixpoint composite_ok (t : ParseTree) : bool :=
  match t with
  | mkParseTree _ data children =>
      match children with
      | [] => true
      | _ :: _ => len data =? 0
      end
      && forallb (fun c => match c with
                           | Some t' => composite_ok t'
                           | None => false
                           end) children
  end.

Definition entry_ok (c : option ParseTree) : bool :=
  match c with
  | Some t => composite_ok t
  | None => false
  end.

(** Every tree that a lexer returns is [composite_ok]. *)
Definition trees_ok (l : Lexeme) : Prop :=
  forall fuel s pos t e n,
    call l fuel s pos = Ret (Some t, e, n) -> composite_ok t = true.

(** A lexer is stable when more fuel does not change what it returns. *)
Definition stable (l : Lexeme) : Prop :=
  forall fuel fuel' s pos r,
    (fuel <= fuel')%nat ->
    call l fuel s pos = Ret r -> call l fuel' s pos = Ret r.

(** ** Notions used by the further properties *)

(** A lexer never fails when none of its returns carries an error. *)
Definition never_fails (l : Lexeme) : Prop :=
  forall fuel s pos tree e n, call l fuel s pos <> Ret (tree, Some e, n).

(** A lexer gives trees when none of its successes has a nil tree. *)
Definition gives_tree (l : Lexeme) : Prop :=
  forall fuel s pos tree n, call l fuel s pos = Ret (tree, None, n) -> tree <> None.

(** A lexer keeps its trees in shape when the trees it returns are
    [composite_ok] and it either gives trees or never fails (a repetition of
    a child that never fails does not return, and so collects no entry). *)
Definition shapely (l : Lexeme) : Prop :=
  trees_ok l /\ (never_fails l \/ gives_tree l).

(** The bytes of the input from [pos], [n] of them. *)
Definition input_slice (s : Source) (pos n : Z) : list byte :=
  firstn (Z.to_nat n) (skipn (Z.to_nat pos) (buf s)).

(** The raw bytes of a tree, read from left to right. *)
Fixpoint yield (t : ParseTree) : list byte :=
  match t with
  | mkParseTree _ data children =>
      data ++ flat_map (fun c => match c with
                                 | Some t' => yield t'
                                 | None => []
                                 end) children
  end.

Definition yield_of (c : option ParseTree) : list byte :=
  match c with
  | Some t => yield t
  | None => []
  end.

(** A buffer is addressable when an [int] can hold its length, as the
    length of every Go slice is. *)
Definition addressable (s : Source) : Prop := len (buf s) < Int.half.

(** A lexer stays inside the buffer when, called inside it, each of its
    successes consumes a length that is not negative and ends inside it. *)
Definition in_bounds (l : Lexeme) : Prop :=
  forall fuel s pos tree n,
    addressable s ->
    0 <= pos <= len (buf s) ->
    call l fuel s pos = Ret (tree, None, n) ->
    0 <= n /\ pos + n <= len (buf s).

(** A lexer spells its input when the tree of each of its successes yields
    the bytes it consumed. *)
Definition spells (l : Lexeme) : Prop :=
  forall fuel s pos tree n,
    addressable s ->
    0 <= pos <= len (buf s) ->
    call l fuel s pos = Ret (tree, None, n) ->
    yield_of tree = input_slice s pos n.

(** The lexers that the combinators of [language.go] build over the lexers
    of [leaf]; the discard lexer is one of the combinators when [discards]
    holds. *)
Inductive combined (discards : bool) (leaf : Lexeme -> Prop) : Lexeme -> Prop :=
| combined_leaf l : leaf l -> combined discards leaf l
| combined_concat name deps :
    all_combined discards leaf deps ->
    combined discards leaf (NewConcatLexer name deps)
| combined_plus lex :
    combined discards leaf lex -> combined discards leaf (NewPlusClosure lex)
| combined_star lex :
    combined discards leaf lex -> combined discards leaf (NewStarClosure lex)
| combined_option lex :
    combined discards leaf lex -> combined discards leaf (NewOptionClosure lex)
| combined_alternate name lhs rhs :
    combined discards leaf lhs -> combined discards leaf rhs ->
    combined discards leaf (NewAlternateLexer name lhs rhs)
| combined_discard lex :
    discards = true ->
    combined discards leaf lex -> combined discards leaf (NewDiscardLexer lex)
with all_combined (discards : bool) (leaf : Lexeme -> Prop)
  : list Lexeme -> Prop :=
| all_combined_nil : all_combined discards leaf []
| all_combined_cons dep deps :
    combined discards leaf dep -> all_combined discards leaf deps ->
    all_combined discards leaf (dep :: deps).

Scheme combined_mut := Induction for combined Sort Prop
  with all_combined_mut := Induction for all_combined Sort Prop.

(** The literal and the regexp lexers. *)
Inductive is_terminal : Lexeme -> Prop :=
| is_terminal_literal typ valid : is_terminal (NewLiteralLexer typ valid)
| is_terminal_regexp typ valid : is_terminal (NewRegexpLexer typ valid).

(** A lexer is local when it does not look behind its position: the bytes
    before [pos] can be dropped, and [pos] shifted with them, without
    changing any outcome.  The buffer is taken ten bytes shorter than an
    [int] can index, so that the end of the error's neighbourhood does not
    wrap around. *)
Definition local (l : Lexeme) : Prop :=
  forall fuel before b pos,
    len (before ++ b) + 10 < Int.half ->
    0 <= pos <= len b ->
    call l fuel {| buf := before ++ b |} (len before + pos)
    = call l fuel {| buf := b |} pos.

(** A lexer is safe when it does not panic at a position inside the
    buffer.  (The buffer is taken ten bytes shorter than an [int] can index,
    as for [local].) *)
Definition safe (l : Lexeme) : Prop :=
  forall fuel s pos,
    len (buf s) + 10 < Int.half ->
    0 <= pos <= len (buf s) ->
    call l fuel s pos <> Panic.

(** An outcome without its tree: the error and the consumed length of a
    return. *)
Definition outline (r : run LexResult) : run (option error * Z) :=
  match r with
  | Ret (_, err, n) => Ret (err, n)
  | Panic => Panic
  | OutOfFuel => OutOfFuel
  end.

(** The loop of the concatenation lexer without its trees. *)
Fixpoint concat_outline (deps : list Lexeme) (fuel : nat) (s : Source)
  (pos offset : Z) : run (option error * Z) :=
  match deps with
  | [] => Ret (None, offset)
  | dep :: deps' =>
      '(_, err, l) <- call dep fuel s (int_add pos offset) ;;
      match err with
      | Some e => Ret (Some e, 0)
      | None => concat_outline deps' fuel s pos (int_add offset l)
      end
  end.

(** ** The dump of a lexeme *)

Definition newline : string := String (Ascii.ascii_of_nat 10) EmptyString.

(** The default format of a [bool]. *)
Definition bool_String (b : bool) : string :=
  if b then "true"%string else "false"%string.

(** [fmt.Sprintln(indent, name, resolved)]: the operands in their default
    formats, a space between each two of them, and a newline. *)
Definition Sprintln3 (indent name : string) (resolved : bool) : string :=
  String.append indent
    (String.append " "
       (String.append name
          (String.append " " (String.append (bool_String resolved) newline)))).

Fixpoint dumpTree (l : Lexeme) (indent : string) : string :=
  match l with
  | mkLexeme name deps resolved _ =>
      fold_left
        (fun s child =>
           String.append s (dumpTree child (String.append indent " ")))
        deps
        (Sprintln3 indent name resolved)
  end.

Definition Lexeme_String (l : Lexeme) : string := dumpTree l "".

(** The number of lexemes in the tree of dependencies of a lexeme. *)
Fixpoint nodes (l : Lexeme) : nat :=
  match l with
  | mkLexeme _ deps _ _ => S (list_sum (map nodes deps))
  end.

(** The number of newlines in a string. *)
Fixpoint count_newlines (s : string) : nat :=
  match s with
  | EmptyString => 0%nat
  | String c s' =>
      ((if Ascii.eqb c (Ascii.ascii_of_nat 10) then 1 else 0)
       + count_newlines s')%nat
  end.

(** No name in the tree of dependencies holds a newline. *)
Fixpoint names_on_one_line (l : Lexeme) : Prop :=
  match l with
  | mkLexeme name deps _ _ =>
      count_newlines name = 0%nat
      /\ fold_right (fun child P => names_on_one_line child /\ P) True deps
  end.

(** ** Tactics *)

Ltac inv H := inversion H; subst; clear H.

(** Case analysis on the outcome of the child call that a [bind] in [H]
    waits for, dropping the cases where the call does not return. *)
Ltac child_call H :=
  match type of H with
  | context [bind ?c _] =>
      let next := fresh "next" in
      let err := fresh "err" in
      let off := fresh "off" in
      let Hc := fresh "Hcall" in
      destruct c as [[[next err] off]| |] eqn:Hc;
      cbn [bind] in H; try discriminate H
  end.

(** Builds the derivation that a lexer is combined from terminals. *)
Ltac combined_of_terminals :=
  repeat first
    [ apply combined_concat
    | apply combined_plus
    | apply combined_star
    | apply combined_option
    | apply combined_alternate
    | apply combined_discard; [reflexivity|]
    | apply all_combined_nil
    | apply all_combined_cons
    | apply combined_leaf; constructor ].

(** ** Machine arithmetic *)

Lemma wrap_in_range (z : Z) : Int.in_range z -> Int.wrap z = z.
Proof.
  unfold Int.in_range, Int.wrap, Int.modulus, Int.half, Int.bits.
  intros H. rewrite Z.mod_small; lia.
Qed.

Lemma wrap_add_wrap_l (a b : Z) : Int.wrap (Int.wrap a + b) = Int.wrap (a + b).
Proof.
  unfold Int.wrap.
  replace ((a + Int.half) mod Int.modulus - Int.half + b + Int.half)
    with ((a + Int.half) mod Int.modulus + b) by lia.
  rewrite Zplus_mod_idemp_l. f_equal. f_equal. lia.
Qed.

Lemma int_sub_diag (a : Z) : int_sub a a = 0.
Proof.
  unfold int_sub, Int.sub. rewrite Z.sub_diag. reflexivity.
Qed.

Lemma int_add_0_r (a : Z) : Int.in_range a -> int_add a 0 = a.
Proof.
  intros H. unfold int_add, Int.add. rewrite Z.add_0_r.
  now apply wrap_in_range.
Qed.

(** The lengths consumed by a repetition add up, in [int], to the distance
    between where it started and where it stopped. *)
Lemma reps_distance lexer s pos matches final :
  reps lexer s pos matches final ->
  forall q, Int.wrap (final - q) = Int.wrap (pos - q + sumZ (map snd matches)).
Proof.
  induction 1 as [pos tree e off _ | pos tree off matches final _ _ IH];
    intros q.
  - f_equal. cbn. lia.
  - rewrite IH. unfold int_add, Int.add.
    replace (Int.wrap (pos + off) - q + sumZ (map snd matches))
      with (Int.wrap (pos + off) + (- q + sumZ (map snd matches))) by lia.
    rewrite wrap_add_wrap_l. f_equal.
    change (sumZ (map snd ((tree, off) :: matches)))
      with (off + sumZ (map snd matches)).
    lia.
Qed.

Lemma reps_consumed lexer s pos matches final :
  reps lexer s pos matches final ->
  int_sub final pos = Int.wrap (sumZ (map snd matches)).
Proof.
  intros H. unfold int_sub, Int.sub. rewrite (reps_distance H pos).
  f_equal. lia.
Qed.

(** ** The loop of the closures *)

Lemma append_child_Children resp next :
  Children (append_child resp next) = Children resp ++ [next].
Proof. reflexivity. Qed.

(** With one iteration of fuel more than there are matches, the loop returns
    the node with the matched trees appended and the position of the
    failure. *)
Lemma closure_loop_reps lexer s pos matches final :
  reps lexer s pos matches final ->
  forall n resp,
    (List.length matches < n)%nat ->
    closure_loop n lexer s pos resp =
      Ret ({| Typ := Typ resp; Data := Data resp;
              Children := Children resp ++ map fst matches |}, final).
Proof.
  induction 1 as [pos tree e off Hc | pos tree off matches final Hc _ IH];
    intros n resp Hn.
  - destruct n as [|n]; [cbn in Hn; lia|].
    cbn [closure_loop]. rewrite Hc. cbn. rewrite app_nil_r.
    destruct resp; reflexivity.
  - destruct n as [|n]; [cbn in Hn; lia|].
    cbn [closure_loop]. rewrite Hc. cbn [bind].
    rewrite IH by (cbn in Hn; lia).
    cbn. rewrite <- app_assoc. reflexivity.
Qed.

(** The loop never leaves while the child succeeds without moving: a
    successful match of length 0 at [pos] is retried at [pos] for ever. *)
Lemma closure_loop_stuck lexer s pos tree :
  lexer s pos = Ret (tree, None, 0) ->
  Int.in_range pos ->
  forall n resp, closure_loop n lexer s pos resp = OutOfFuel.
Proof.
  intros Hc Hpos. induction n as [|n IH]; intros resp; [reflexivity|].
  cbn [closure_loop]. rewrite Hc. cbn [bind].
  rewrite int_add_0_r by assumption. apply IH.
Qed.

(** Whatever the loop returns, it returns the node it was given with some
    entries appended. *)
Lemma closure_loop_returns lexer s :
  forall n pos resp resp' pos',
    closure_loop n lexer s pos resp = Ret (resp', pos') ->
    exists matches,
      reps lexer s pos matches pos'
      /\ (List.length matches < n)%nat
      /\ resp' = {| Typ := Typ resp; Data := Data resp;
                    Children := Children resp ++ map fst matches |}.
Proof.
  induction n as [|n IH]; intros pos resp resp' pos' H; [discriminate|].
  cbn [closure_loop] in H.
  destruct (lexer s pos) as [[[next err] off]| |] eqn:Hc; cbn in H;
    try discriminate.
  destruct err as [e|].
  - inversion H; subst. exists []. split; [|split].
    + eapply reps_stop; eauto.
    + cbn; lia.
    + cbn. rewrite app_nil_r. destruct resp'; reflexivity.
  - apply IH in H. destruct H as (matches & Hr & Hl & ->).
    exists ((next, off) :: matches). split; [|split].
    + eapply reps_more; eauto.
    + cbn; lia.
    + cbn. rewrite <- app_assoc. reflexivity.
Qed.

(** The loop does leave when the child moves: if each success of the child
    consumes at least one byte and stays inside the buffer, and the child
    always returns, then one iteration per remaining byte and one more are
    enough. *)
Lemma closure_loop_terminates lexer s :
  len (buf s) < Int.half ->
  (forall p t off,
      0 <= p <= len (buf s) ->
      lexer s p = Ret (t, None, off) ->
      0 < off /\ p + off <= len (buf s)) ->
  (forall p, 0 <= p <= len (buf s) -> exists r, lexer s p = Ret r) ->
  forall k pos resp,
    0 <= pos <= len (buf s) ->
    (Z.to_nat (len (buf s) - pos) <= k)%nat ->
    exists resp' pos', closure_loop (S k) lexer s pos resp = Ret (resp', pos').
Proof.
  intros Hlen Hmove Hret. induction k as [|k IH]; intros pos resp Hpos Hk;
    cbn [closure_loop];
    destruct (Hret pos Hpos) as [[[next err] off] Hc]; rewrite Hc; cbn [bind];
    destruct err as [e|]; eauto;
    destruct (Hmove _ _ _ Hpos Hc) as [Hoff Hin].
  - lia.
  - assert (Hadd : int_add pos off = pos + off).
    { apply wrap_in_range. unfold Int.in_range.
      assert (0 < Int.half) by reflexivity. lia. }
    rewrite Hadd. apply IH; lia.
Qed.

(** ** Failing cleanly *)

Lemma NewLiteralLexer_fails_clean typ valid :
  fails_clean (NewLiteralLexer typ valid).
Proof.
  intros fuel s pos tree e n H. cbn in H.
  destruct (ConsumeLiteral s (list_byte_of_string valid) pos).
  - discriminate.
  - destruct (neighborhood_of s pos); cbn in H; try discriminate.
    inv H. auto.
Qed.

Lemma NewRegexpLexer_fails_clean typ valid :
  fails_clean (NewRegexpLexer typ valid).
Proof.
  intros fuel s pos tree e n H. cbn in H.
  destruct (Consume s valid pos).
  - discriminate.
  - destruct (neighborhood_of s pos); cbn in H; try discriminate.
    inv H. auto.
Qed.

Lemma concat_loop_fails_clean name deps fuel s pos :
  forall children offset tree e n,
    concat_loop name deps fuel s pos children offset = Ret (tree, Some e, n) ->
    tree = None /\ n = 0.
Proof.
  induction deps as [|dep deps IH]; intros children offset tree e n H;
    cbn [concat_loop] in H.
  - destruct (len children =? 1); discriminate.
  - child_call H. destruct err as [e'|].
    + inv H. auto.
    + eapply IH; eauto.
Qed.

Lemma NewConcatLexer_fails_clean name deps :
  fails_clean (NewConcatLexer name deps).
Proof.
  intros fuel s pos tree e n H. cbn in H.
  eapply concat_loop_fails_clean; eauto.
Qed.

Lemma NewPlusClosure_fails_clean lex : fails_clean (NewPlusClosure lex).
Proof.
  intros fuel s pos tree e n H. cbn in H.
  child_call H. destruct err as [e'|].
  - inv H. auto.
  - destruct (closure_loop _ _ _ _ _) as [[resp pos']| |]; cbn in H;
      discriminate.
Qed.

Lemma NewStarClosure_fails_clean lex : fails_clean (NewStarClosure lex).
Proof.
  intros fuel s pos tree e n H. cbn in H.
  destruct (closure_loop _ _ _ _ _) as [[resp pos']| |]; cbn in H;
    discriminate.
Qed.

Lemma NewOptionClosure_fails_clean lex : fails_clean (NewOptionClosure lex).
Proof.
  intros fuel s pos tree e n H. cbn in H. child_call H.
Qed.

Lemma NewAlternateLexer_fails_clean name lhs rhs :
  fails_clean (NewAlternateLexer name lhs rhs).
Proof.
  intros fuel s pos tree e n H. cbn in H.
  child_call H. destruct err as [e'|]; [|discriminate].
  child_call H. destruct err as [e''|]; [|discriminate].
  inv H. auto.
Qed.

Lemma NewDiscardLexer_fails_clean lex : fails_clean (NewDiscardLexer lex).
Proof.
  intros fuel s pos tree e n H. cbn in H. child_call H.
Qed.

Lemma built_fails_clean l : built l -> fails_clean l.
Proof.
  destruct 1.
  - apply NewLiteralLexer_fails_clean.
  - apply NewRegexpLexer_fails_clean.
  - apply NewConcatLexer_fails_clean.
  - apply NewPlusClosure_fails_clean.
  - apply NewStarClosure_fails_clean.
  - apply NewOptionClosure_fails_clean.
  - apply NewAlternateLexer_fails_clean.
  - apply NewDiscardLexer_fails_clean.
Qed.

(** ** Fuel *)

Lemma closure_loop_mono lexer lexer' s :
  (forall p r, lexer s p = Ret r -> lexer' s p = Ret r) ->
  forall n n' pos resp r,
    (n <= n')%nat ->
    closure_loop n lexer s pos resp = Ret r ->
    closure_loop n' lexer' s pos resp = Ret r.
Proof.
  intros Hl. induction n as [|n IH]; intros n' pos resp r Hn H;
    [discriminate|].
  destruct n' as [|n']; [lia|]. cbn [closure_loop] in *.
  child_call H. rewrite (Hl _ _ Hcall). cbn [bind].
  destruct err as [e|]; [assumption|].
  apply IH with (n' := n') in H; [assumption | lia].
Qed.

Lemma concat_loop_mono name deps fuel fuel' s pos :
  Forall stable deps ->
  (fuel <= fuel')%nat ->
  forall children offset r,
    concat_loop name deps fuel s pos children offset = Ret r ->
    concat_loop name deps fuel' s pos children offset = Ret r.
Proof.
  intros Hs Hf. induction Hs as [|dep deps Hdep _ IH];
    intros children offset r H; cbn [concat_loop] in *; [assumption|].
  child_call H. rewrite (Hdep _ _ _ _ _ Hf Hcall). cbn [bind].
  destruct err as [e|]; [assumption|]. now apply IH.
Qed.

(** The lexers built by the constructors are stable: the fuel only bounds
    the loops of the closures, and a run that returned within its bound
    returns the same within a larger one. *)
Lemma built_stable l : built l -> stable l.
Proof.
  induction 1 using built_mut with (P0 := fun deps _ => Forall stable deps).
  - intros fuel fuel' s pos r _ Hrun. exact Hrun.
  - intros fuel fuel' s pos r _ Hrun. exact Hrun.
  - intros fuel fuel' s pos r Hf Hrun. cbn in *.
    eapply concat_loop_mono; eauto.
  - intros fuel fuel' s pos r Hf Hrun. cbn in *.
    fold (call lex fuel) in Hrun. fold (call lex fuel').
    child_call Hrun. rewrite (IHbuilt _ _ _ _ _ Hf Hcall). cbn [bind].
    destruct err as [e|]; [assumption|].
    destruct (closure_loop fuel _ _ _ _) as [x| |] eqn:Hloop; cbn in Hrun;
      try discriminate.
    rewrite (@closure_loop_mono (call lex fuel) (call lex fuel') s
               (fun p r' => IHbuilt fuel fuel' s p r' Hf) _ _ _ _ _ Hf Hloop).
    exact Hrun.
  - intros fuel fuel' s pos r Hf Hrun. cbn in *.
    fold (call lex fuel) in Hrun. fold (call lex fuel').
    destruct (closure_loop fuel _ _ _ _) as [x| |] eqn:Hloop; cbn in Hrun;
      try discriminate.
    rewrite (@closure_loop_mono (call lex fuel) (call lex fuel') s
               (fun p r' => IHbuilt fuel fuel' s p r' Hf) _ _ _ _ _ Hf Hloop).
    exact Hrun.
  - intros fuel fuel' s pos r Hf Hrun. cbn in *.
    fold (call lex fuel s pos) in Hrun. fold (call lex fuel' s pos).
    child_call Hrun. now rewrite (IHbuilt _ _ _ _ _ Hf Hcall).
  - intros fuel fuel' s pos r Hf Hrun. cbn in *.
    fold (call lhs fuel s pos) (call rhs fuel s pos) in Hrun.
    fold (call lhs fuel' s pos) (call rhs fuel' s pos).
    child_call Hrun. rewrite (IHbuilt1 _ _ _ _ _ Hf Hcall). cbn [bind].
    destruct err as [e|]; [|assumption].
    child_call Hrun. now rewrite (IHbuilt2 _ _ _ _ _ Hf Hcall0).
  - intros fuel fuel' s pos r Hf Hrun. cbn in *.
    fold (call lex fuel s pos) in Hrun. fold (call lex fuel' s pos).
    child_call Hrun. now rewrite (IHbuilt _ _ _ _ _ Hf Hcall).
  - constructor.
  - now constructor.
Qed.

(** ** Discard *)

(** What the discard lexer does with each outcome of its child: the child's
    error is dropped together with its tree. *)
Lemma NewDiscardLexer_call lex fuel s pos :
  call (NewDiscardLexer lex) fuel s pos =
    match call lex fuel s pos with
    | Ret (_, _, offset) => Ret (None, None, offset)
    | Panic => Panic
    | OutOfFuel => OutOfFuel
    end.
Proof.
  cbn. destruct (call lex fuel s pos) as [[[tree err] off]| |]; reflexivity.
Qed.

(** C1, on the code: the discard of the literal ['a'] is matched against the
    input ["b"].  The literal fails there, with an error, no tree and no byte
    consumed; the discard lexer nevertheless returns a nil error, that is a
    success that consumed 0 bytes, instead of the child's failure. *)
Theorem NewDiscardLexer_swallows_failure :
  forall (typ : string) (fuel : nat),
    call (NewLiteralLexer typ "a") fuel (source_of "b") 0
    = Ret (None, Some (ExpectedLiteral "a" ["b"%byte]), 0)
    /\ call (NewDiscardLexer (NewLiteralLexer typ "a")) fuel (source_of "b") 0
       = Ret (None, None, 0).
Proof.
  intros typ fuel. split; reflexivity.
Qed.

(** ** Repetition of a child that matches nothing *)

(** C2, on the code: the star and the plus of the optional literal ['x'] are
    matched against the empty input.  The optional succeeds at 0 with a
    length of 0, the loop of either closure calls it at 0 again, and no
    number of iterations is enough for the closure to return. *)
Theorem closures_loop_on_empty_match :
  forall (typ : string) (fuel : nat),
    call (NewStarClosure (NewOptionClosure (NewLiteralLexer typ "x")))
         fuel (source_of "") 0 = OutOfFuel
    /\ call (NewPlusClosure (NewOptionClosure (NewLiteralLexer typ "x")))
            fuel (source_of "") 0 = OutOfFuel.
Proof.
  intros typ fuel.
  assert (Hopt : call (NewOptionClosure (NewLiteralLexer typ "x")) fuel
                      (source_of "") 0 = Ret (None, None, 0))
    by reflexivity.
  assert (H0 : Int.in_range 0) by (vm_compute; split; [discriminate | reflexivity]).
  split.
  - cbn [call NewStarClosure Lexer].
    rewrite (closure_loop_stuck _ _ Hopt H0). reflexivity.
  - cbn [call NewPlusClosure Lexer].
    change (match Lexer (NewOptionClosure (NewLiteralLexer typ "x")) with
            | Some f => f fuel (source_of "") 0
            | None => Panic
            end)
      with (call (NewOptionClosure (NewLiteralLexer typ "x")) fuel
                 (source_of "") 0).
    rewrite Hopt. cbn [bind].
    change (int_add 0 0) with 0.
    rewrite (closure_loop_stuck _ _ Hopt H0). reflexivity.
Qed.

(** ** Optional *)

(** C3: the optional lexer calls its child once, at the same position.  A
    success of the child is returned as it is; a failure of a child that
    fails cleanly (as every lexer of the package does) becomes a success with
    no tree and a consumed length of 0; and no return of the optional lexer
    carries an error. *)
Theorem NewOptionClosure_spec :
  forall (lex : Lexeme) (fuel : nat) (s : Source) (pos : Z),
    (forall tree n,
        call lex fuel s pos = Ret (tree, None, n) ->
        call (NewOptionClosure lex) fuel s pos = Ret (tree, None, n))
    /\ (forall tree e n,
           fails_clean lex ->
           call lex fuel s pos = Ret (tree, Some e, n) ->
           call (NewOptionClosure lex) fuel s pos = Ret (None, None, 0))
    /\ (forall tree err n,
           call (NewOptionClosure lex) fuel s pos = Ret (tree, err, n) ->
           err = None).
Proof.
  intros lex fuel s pos. split; [|split].
  - intros tree n H. cbn. fold (call lex fuel s pos). rewrite H. reflexivity.
  - intros tree e n Hclean H. destruct (Hclean _ _ _ _ _ _ H) as [-> ->].
    cbn. fold (call lex fuel s pos). rewrite H. reflexivity.
  - intros tree err n H. cbn in H. child_call H. inv H. reflexivity.
Qed.

Lemma NewOptionClosure_spec_witness :
  call (NewOptionClosure (NewLiteralLexer "x" "x")) 1%nat (source_of "xy") 0
  = Ret (Some {| Typ := "x"; Data := ["x"%byte]; Children := [] |}, None, 1)
  /\ call (NewOptionClosure (NewLiteralLexer "x" "x")) 1%nat (source_of "xy") 1
     = Ret (None, None, 0)
  /\ None = (None : option error).
Proof.
  split; [|split].
  - apply (proj1 (NewOptionClosure_spec (NewLiteralLexer "x" "x") 1%nat
                    (source_of "xy") 0)).
    reflexivity.
  - apply (proj1 (proj2 (NewOptionClosure_spec (NewLiteralLexer "x" "x") 1%nat
                           (source_of "xy") 1))
             None (ExpectedLiteral "x" ["y"%byte]) 0).
    + apply NewLiteralLexer_fails_clean.
    + reflexivity.
  - apply (proj2 (proj2 (NewOptionClosure_spec (NewLiteralLexer "x" "x") 1%nat
                           (source_of "xy") 1))
             None None 0).
    reflexivity.
Defined.

(** ** Alternate *)

(** C4: the alternate lexer calls its left child first and returns its
    success as it is; when the left child fails it calls the right child at
    the same position and returns its success as it is; it fails, with the
    right child's error, when both fail, and only then.  The rule
    [r <- 'a' / 'b'] matches the input ["b"] through its right alternative
    and consumes one byte. *)
Theorem NewAlternateLexer_spec :
  forall (name : string) (lhs rhs : Lexeme) (fuel : nat) (s : Source) (pos : Z),
    (forall tree n,
        call lhs fuel s pos = Ret (tree, None, n) ->
        call (NewAlternateLexer name lhs rhs) fuel s pos = Ret (tree, None, n))
    /\ (forall tree e n tree' n',
           call lhs fuel s pos = Ret (tree, Some e, n) ->
           call rhs fuel s pos = Ret (tree', None, n') ->
           call (NewAlternateLexer name lhs rhs) fuel s pos
           = Ret (tree', None, n'))
    /\ (forall tree e n tree' e' n',
           call lhs fuel s pos = Ret (tree, Some e, n) ->
           call rhs fuel s pos = Ret (tree', Some e', n') ->
           call (NewAlternateLexer name lhs rhs) fuel s pos
           = Ret (None, Some e', 0))
    /\ (forall tree e n,
           call (NewAlternateLexer name lhs rhs) fuel s pos
           = Ret (tree, Some e, n) ->
           (exists tl el nl, call lhs fuel s pos = Ret (tl, Some el, nl))
           /\ (exists tr nr, call rhs fuel s pos = Ret (tr, Some e, nr)))
    /\ (forall ta tb,
           call (NewAlternateLexer name (NewLiteralLexer ta "a")
                                   (NewLiteralLexer tb "b"))
                fuel (source_of "b") 0
           = Ret (Some {| Typ := tb; Data := ["b"%byte]; Children := [] |},
                  None, 1)).
Proof.
  intros name lhs rhs fuel s pos. repeat split.
  - intros tree n H. cbn. fold (call lhs fuel s pos). rewrite H. reflexivity.
  - intros tree e n tree' n' Hl Hr. cbn.
    fold (call lhs fuel s pos) (call rhs fuel s pos).
    rewrite Hl. cbn. rewrite Hr. reflexivity.
  - intros tree e n tree' e' n' Hl Hr. cbn.
    fold (call lhs fuel s pos) (call rhs fuel s pos).
    rewrite Hl. cbn. rewrite Hr. reflexivity.
  - cbn in H. fold (call lhs fuel s pos) (call rhs fuel s pos) in H.
    child_call H. destruct err as [el|]; [|discriminate]. eauto.
  - cbn in H. fold (call lhs fuel s pos) (call rhs fuel s pos) in H.
    child_call H. destruct err as [el|]; [|discriminate].
    child_call H. destruct err as [er|]; [|discriminate].
    inv H. eauto.
Qed.

Lemma NewAlternateLexer_spec_witness :
  call (NewAlternateLexer "r" (NewLiteralLexer "a" "a") (NewLiteralLexer "b" "b"))
       0%nat (source_of "bc") 0
  = Ret (Some {| Typ := "b"; Data := ["b"%byte]; Children := [] |}, None, 1)
  /\ call (NewAlternateLexer "r" (NewLiteralLexer "a" "a")
                             (NewLiteralLexer "b" "b"))
          0%nat (source_of "bc") 1
     = Ret (None, Some (ExpectedLiteral "b" ["c"%byte]), 0).
Proof.
  pose proof (NewAlternateLexer_spec "r" (NewLiteralLexer "a" "a")
                (NewLiteralLexer "b" "b") 0%nat (source_of "bc") 0) as H0.
  pose proof (NewAlternateLexer_spec "r" (NewLiteralLexer "a" "a")
                (NewLiteralLexer "b" "b") 0%nat (source_of "bc") 1) as H1.
  split.
  - apply (proj1 (proj2 H0) None (ExpectedLiteral "a" ["b"%byte; "c"%byte]) 0);
      reflexivity.
  - apply (proj1 (proj2 (proj2 H1))
             None (ExpectedLiteral "a" ["c"%byte]) 0 None
             (ExpectedLiteral "b" ["c"%byte]) 0);
      reflexivity.
Defined.

(** ** Plus *)

Lemma NewPlusClosure_reps lex fuel s pos m matches final :
  reps (call lex fuel) s pos (m :: matches) final ->
  (List.length matches < fuel)%nat ->
  call (NewPlusClosure lex) fuel s pos
  = Ret (Some {| Typ := String.append (Name lex) "+"; Data := [];
                 Children := map fst (m :: matches) |},
         None, Int.wrap (sumZ (map snd (m :: matches)))).
Proof.
  intros Hr Hn. rewrite <- (reps_consumed Hr).
  inversion Hr as [|pos' tree off matches' final' Hc Hr']; subst.
  cbn [call NewPlusClosure Lexer]. fold (call lex fuel). rewrite Hc.
  cbn [bind]. rewrite (closure_loop_reps Hr') by assumption.
  reflexivity.
Qed.

(** C6: the plus lexer fails, with the child's error, when the first call of
    its child fails.  When the child matches one or more times in a row, each
    time where the match before stopped, and then fails, the plus lexer
    succeeds (given one loop iteration per match): its node has one child
    entry per match, in order, and it consumes the sum of their lengths.
    There is no other way for it to succeed.  The rule [r <- 'x'+] fails on
    the empty input. *)
Theorem NewPlusClosure_spec :
  forall (lex : Lexeme) (fuel : nat) (s : Source) (pos : Z),
    (forall tree e n,
        call lex fuel s pos = Ret (tree, Some e, n) ->
        call (NewPlusClosure lex) fuel s pos = Ret (None, Some e, 0))
    /\ (forall m matches final,
           reps (call lex fuel) s pos (m :: matches) final ->
           (List.length matches < fuel)%nat ->
           call (NewPlusClosure lex) fuel s pos
           = Ret (Some {| Typ := String.append (Name lex) "+"; Data := [];
                          Children := map fst (m :: matches) |},
                  None, Int.wrap (sumZ (map snd (m :: matches)))))
    /\ (forall tree n,
           call (NewPlusClosure lex) fuel s pos = Ret (tree, None, n) ->
           exists m matches final,
             reps (call lex fuel) s pos (m :: matches) final
             /\ tree = Some {| Typ := String.append (Name lex) "+"; Data := [];
                               Children := map fst (m :: matches) |}
             /\ n = Int.wrap (sumZ (map snd (m :: matches))))
    /\ (forall typ,
           call (NewPlusClosure (NewLiteralLexer typ "x")) fuel (source_of "") 0
           = Ret (None, Some (ExpectedLiteral "x" []), 0)).
Proof.
  intros lex fuel s pos. split; [|split; [|split]].
  - intros tree e n H. cbn. fold (call lex fuel s pos). rewrite H.
    reflexivity.
  - intros m matches final Hr Hn. now apply NewPlusClosure_reps with final.
  - intros tree n H. cbn in H. fold (call lex fuel) in H.
    child_call H. destruct err as [e|]; [discriminate|].
    destruct (closure_loop _ _ _ _ _) as [[resp pos']| |] eqn:Hloop;
      cbn in H; try discriminate.
    inv H. apply closure_loop_returns in Hloop.
    destruct Hloop as (matches & Hr & _ & ->).
    assert (Hall : reps (call lex fuel) s pos ((next, off) :: matches) pos')
      by (eapply reps_more; eauto).
    exists (next, off), matches, pos'. split; [assumption|]. split.
    + reflexivity.
    + apply (reps_consumed Hall).
  - intros typ. reflexivity.
Qed.

Lemma NewPlusClosure_spec_witness :
  call (NewPlusClosure (NewLiteralLexer "x" "x")) 3%nat (source_of "xxy") 0
  = Ret (Some {| Typ := "x+"; Data := [];
                 Children :=
                   [Some {| Typ := "x"; Data := ["x"%byte]; Children := [] |};
                    Some {| Typ := "x"; Data := ["x"%byte]; Children := [] |}]
              |}, None, 2)
  /\ call (NewPlusClosure (NewLiteralLexer "x" "x")) 3%nat (source_of "xxy") 2
     = Ret (None, Some (ExpectedLiteral "x" ["y"%byte]), 0).
Proof.
  pose (x := {| Typ := "x"; Data := ["x"%byte]; Children := [] |}).
  split.
  - apply (proj1 (proj2 (NewPlusClosure_spec (NewLiteralLexer "x" "x") 3%nat
                           (source_of "xxy") 0))
             (Some x, 1) [(Some x, 1)] 2).
    + eapply reps_more; [reflexivity|].
      eapply reps_more; [reflexivity|].
      eapply reps_stop. reflexivity.
    + cbn. lia.
  - apply (proj1 (NewPlusClosure_spec (NewLiteralLexer "x" "x") 3%nat
                    (source_of "xxy") 2)
             None (ExpectedLiteral "x" ["y"%byte]) 0).
    reflexivity.
Defined.

(** ** Star *)

Lemma NewStarClosure_reps lex fuel s pos matches final :
  reps (call lex fuel) s pos matches final ->
  (List.length matches < fuel)%nat ->
  call (NewStarClosure lex) fuel s pos
  = Ret (Some {| Typ := String.append (Name lex) "*"; Data := [];
                 Children := map fst matches |},
         None, Int.wrap (sumZ (map snd matches))).
Proof.
  intros Hr Hn. rewrite <- (reps_consumed Hr).
  cbn [call NewStarClosure Lexer]. fold (call lex fuel).
  rewrite (closure_loop_reps Hr) by assumption. reflexivity.
Qed.

(** C7: no return of the star lexer carries an error.  When the child
    matches any number of times in a row and then fails, the star lexer
    succeeds like the plus lexer; in particular, when the child fails at the
    first call, it succeeds with an empty child list and a consumed length of
    0.  The rule [r <- 'x'*] does so on the empty input. *)
Theorem NewStarClosure_spec :
  forall (lex : Lexeme) (fuel : nat) (s : Source) (pos : Z),
    (forall tree err n,
        call (NewStarClosure lex) fuel s pos = Ret (tree, err, n) ->
        err = None)
    /\ (forall matches final,
           reps (call lex fuel) s pos matches final ->
           (List.length matches < fuel)%nat ->
           call (NewStarClosure lex) fuel s pos
           = Ret (Some {| Typ := String.append (Name lex) "*"; Data := [];
                          Children := map fst matches |},
                  None, Int.wrap (sumZ (map snd matches))))
    /\ (forall tree e n,
           call lex fuel s pos = Ret (tree, Some e, n) ->
           (0 < fuel)%nat ->
           call (NewStarClosure lex) fuel s pos
           = Ret (Some {| Typ := String.append (Name lex) "*"; Data := [];
                          Children := [] |}, None, 0))
    /\ (forall typ,
           (0 < fuel)%nat ->
           call (NewStarClosure (NewLiteralLexer typ "x")) fuel (source_of "") 0
           = Ret (Some {| Typ := String.append typ "*"; Data := [];
                          Children := [] |}, None, 0)).
Proof.
  intros lex fuel s pos. split; [|split; [|split]].
  - intros tree err n H. cbn in H.
    destruct (closure_loop _ _ _ _ _) as [[resp pos']| |]; cbn in H;
      try discriminate.
    inv H. reflexivity.
  - intros matches final Hr Hn. now apply NewStarClosure_reps with final.
  - intros tree e n H Hn.
    apply (@NewStarClosure_reps lex fuel s pos [] pos).
    + eapply reps_stop; eauto.
    + exact Hn.
  - intros typ Hn.
    apply (@NewStarClosure_reps (NewLiteralLexer typ "x") fuel
             (source_of "") 0 [] 0).
    + eapply reps_stop. reflexivity.
    + exact Hn.
Qed.

Lemma NewStarClosure_spec_witness :
  call (NewStarClosure (NewLiteralLexer "x" "x")) 3%nat (source_of "xxy") 0
  = Ret (Some {| Typ := "x*"; Data := [];
                 Children :=
                   [Some {| Typ := "x"; Data := ["x"%byte]; Children := [] |};
                    Some {| Typ := "x"; Data := ["x"%byte]; Children := [] |}]
              |}, None, 2)
  /\ call (NewStarClosure (NewLiteralLexer "x" "x")) 1%nat (source_of "xxy") 2
     = Ret (Some {| Typ := "x*"; Data := []; Children := [] |}, None, 0)
  /\ call (NewStarClosure (NewLiteralLexer "x" "x")) 1%nat (source_of "") 0
     = Ret (Some {| Typ := "x*"; Data := []; Children := [] |}, None, 0).
Proof.
  pose (x := {| Typ := "x"; Data := ["x"%byte]; Children := [] |}).
  split; [|split].
  - apply (proj1 (proj2 (NewStarClosure_spec (NewLiteralLexer "x" "x") 3%nat
                           (source_of "xxy") 0))
             [(Some x, 1); (Some x, 1)] 2).
    + eapply reps_more; [reflexivity|].
      eapply reps_more; [reflexivity|].
      eapply reps_stop. reflexivity.
    + cbn. lia.
  - apply (proj1 (proj2 (proj2 (NewStarClosure_spec (NewLiteralLexer "x" "x")
                                  1%nat (source_of "xxy") 2)))
             None (ExpectedLiteral "x" ["y"%byte]) 0).
    + reflexivity.
    + lia.
  - apply (proj2 (proj2 (proj2 (NewStarClosure_spec (NewLiteralLexer "x" "x")
                                  1%nat (source_of "") 0))) "x"%string).
    lia.
Defined.

(** ** Concatenation *)

Lemma wrap_wrap (z : Z) : Int.wrap (Int.wrap z) = Int.wrap z.
Proof.
  rewrite <- (Z.add_0_r (Int.wrap z)) at 1.
  rewrite wrap_add_wrap_l. now rewrite Z.add_0_r.
Qed.

(** What the statements after the loop return is [single_or_node]. *)
Lemma concat_finish name (children : list (option ParseTree)) (offset : Z) :
  (if len children =? 1
   then Ret (nth 0 children None, None, offset)
   else Ret (Some {| Typ := name; Data := []; Children := children |},
             None, offset))
  = Ret (single_or_node name children, @None error, offset).
Proof.
  destruct children as [|a [|b children]]; try reflexivity.
  unfold len. cbn [List.length].
  destruct (Z.eqb_spec (Z.of_nat (S (S (List.length children)))) 1) as [E|E];
    [lia | reflexivity].
Qed.

Lemma contributed_cons tree l results :
  contributed ((tree, l) :: results)
  = match tree with
    | Some _ => [tree]
    | None => []
    end ++ contributed results.
Proof. destruct tree; reflexivity. Qed.

Lemma concat_loop_succeeds name fuel s pos deps offset results total :
  concat_succeeds fuel s pos deps offset results total ->
  forall children,
    concat_loop name deps fuel s pos children offset
    = Ret (single_or_node name (children ++ contributed results), None, total).
Proof.
  induction 1 as [offset | dep deps offset tree l results total Hc _ IH];
    intros children; cbn [concat_loop].
  - rewrite concat_finish. cbn. now rewrite app_nil_r.
  - rewrite Hc. cbn [bind]. rewrite IH, contributed_cons.
    destruct tree; cbn [app]; [now rewrite <- app_assoc | reflexivity].
Qed.

Lemma concat_loop_fails name fuel s pos deps offset e :
  concat_fails fuel s pos deps offset e ->
  forall children,
    concat_loop name deps fuel s pos children offset = Ret (None, Some e, 0).
Proof.
  induction 1 as [dep deps offset tree e l Hc
                 | dep deps offset tree l e Hc _ IH];
    intros children; cbn [concat_loop]; rewrite Hc; cbn [bind].
  - reflexivity.
  - apply IH.
Qed.

Lemma concat_loop_returns name fuel s pos deps :
  forall children offset tree err n,
    concat_loop name deps fuel s pos children offset = Ret (tree, err, n) ->
    match err with
    | Some e => concat_fails fuel s pos deps offset e
    | None =>
        exists results,
          concat_succeeds fuel s pos deps offset results n
          /\ tree = single_or_node name (children ++ contributed results)
    end.
Proof.
  induction deps as [|dep deps IH]; intros children offset tree err n H;
    cbn [concat_loop] in H.
  - rewrite concat_finish in H. inv H. exists []. split.
    + constructor.
    + cbn. now rewrite app_nil_r.
  - child_call H. destruct err0 as [e|].
    + inv H. eapply concat_fails_here; eauto.
    + apply IH in H. destruct err as [e|].
      * eapply concat_fails_later; eauto.
      * destruct H as (results & Hs & ->).
        exists ((next, off) :: results). split.
        -- eapply concat_succeeds_cons; eauto.
        -- rewrite contributed_cons.
           destruct next; cbn [app]; [now rewrite <- app_assoc | reflexivity].
Qed.

(** The position after the children is the start plus, in [int], the sum of
    the lengths they consumed. *)
Lemma concat_succeeds_total fuel s pos deps offset results total :
  concat_succeeds fuel s pos deps offset results total ->
  Int.wrap offset = offset ->
  total = Int.wrap (offset + sumZ (map snd results)).
Proof.
  induction 1 as [offset | dep deps offset tree l results total _ _ IH];
    intros Hoff.
  - cbn. now rewrite Z.add_0_r.
  - rewrite IH by apply wrap_wrap.
    unfold int_add, Int.add. rewrite wrap_add_wrap_l.
    change (sumZ (map snd ((tree, l) :: results)))
      with (l + sumZ (map snd results)).
    f_equal. lia.
Qed.

(** C5: the concatenation lexer calls its children in order, each at the
    position plus the lengths consumed so far.  When they all succeed it
    succeeds, consuming the sum of their lengths; only the children that
    returned a tree contribute an entry, and when exactly one did, its tree
    is the result, otherwise a node named after the concatenation wraps the
    entries.  When a child fails, those before it having succeeded, it fails
    with that child's error, no tree and no consumed length.  Every return
    of the lexer is one of the two. *)
Theorem NewConcatLexer_spec :
  forall (name : string) (deps : list Lexeme) (fuel : nat) (s : Source)
         (pos : Z),
    (forall results total,
        concat_succeeds fuel s pos deps 0 results total ->
        call (NewConcatLexer name deps) fuel s pos
        = Ret (single_or_node name (contributed results), None, total)
        /\ total = Int.wrap (sumZ (map snd results)))
    /\ (forall e,
           concat_fails fuel s pos deps 0 e ->
           call (NewConcatLexer name deps) fuel s pos = Ret (None, Some e, 0))
    /\ (forall tree n,
           call (NewConcatLexer name deps) fuel s pos = Ret (tree, None, n) ->
           exists results,
             concat_succeeds fuel s pos deps 0 results n
             /\ tree = single_or_node name (contributed results))
    /\ (forall tree e n,
           call (NewConcatLexer name deps) fuel s pos = Ret (tree, Some e, n) ->
           concat_fails fuel s pos deps 0 e /\ tree = None /\ n = 0).
Proof.
  intros name deps fuel s pos. split; [|split; [|split]].
  - intros results total H. split.
    + cbn. now rewrite (concat_loop_succeeds name H).
    + now apply (concat_succeeds_total H).
  - intros e H. cbn. now rewrite (concat_loop_fails name H).
  - intros tree n H. cbn in H. apply concat_loop_returns in H. exact H.
  - intros tree e n H. split.
    + cbn in H. apply concat_loop_returns in H. exact H.
    + eapply NewConcatLexer_fails_clean; eauto.
Qed.

Lemma NewConcatLexer_spec_witness :
  (call (NewConcatLexer "c" [NewLiteralLexer "x" "x";
                             NewDiscardLexer (NewLiteralLexer "x" "x");
                             NewLiteralLexer "y" "y"])
        0%nat (source_of "xxyz") 0
   = Ret (Some {| Typ := "c"; Data := [];
                  Children :=
                    [Some {| Typ := "x"; Data := ["x"%byte]; Children := [] |};
                     Some {| Typ := "y"; Data := ["y"%byte]; Children := [] |}]
               |}, None, 3)
   /\ 3 = Int.wrap (1 + (1 + (1 + 0))))
  /\ call (NewConcatLexer "c" [NewLiteralLexer "x" "x";
                               NewLiteralLexer "y" "y"])
          0%nat (source_of "xxyz") 0
     = Ret (None, Some (ExpectedLiteral "y" ["x"%byte; "y"%byte; "z"%byte]), 0).
Proof.
  pose (x := {| Typ := "x"; Data := ["x"%byte]; Children := [] |}).
  pose (y := {| Typ := "y"; Data := ["y"%byte]; Children := [] |}).
  split.
  - apply (proj1 (NewConcatLexer_spec "c"
                    [NewLiteralLexer "x" "x";
                     NewDiscardLexer (NewLiteralLexer "x" "x");
                     NewLiteralLexer "y" "y"] 0%nat (source_of "xxyz") 0)
             [(Some x, 1); (None, 1); (Some y, 1)] 3).
    eapply concat_succeeds_cons; [reflexivity|].
    eapply concat_succeeds_cons; [reflexivity|].
    eapply concat_succeeds_cons; [reflexivity|].
    apply concat_succeeds_nil.
  - apply (proj1 (proj2 (NewConcatLexer_spec "c"
                           [NewLiteralLexer "x" "x"; NewLiteralLexer "y" "y"]
                           0%nat (source_of "xxyz") 0))).
    eapply concat_fails_later; [reflexivity|].
    eapply concat_fails_here. reflexivity.
Defined.

(** ** The facade *)

(** [Parse] on a reader that delivers its bytes: the root lexer is called on
    them at offset 0, and its tree and error are returned without the
    consumed length. *)
Lemma Parse_call l fuel content :
  Parse l fuel {| contents := content; read_error := None |}
  = ('(tree, err, _) <- call (root l) fuel {| buf := content |} 0 ;;
     Ret (tree, err)).
Proof. reflexivity. Qed.

(** C8: [ParseString] calls the root lexer on the input at offset 0.  When
    the root succeeds, whatever length [n] it consumed, the result is its
    tree and no error: input left over is not an error.  When the root fails,
    the result is its error and, the root failing cleanly as every lexer of
    the package does, no tree.  The consumed length is not part of the
    result.  [Parse] does the same on the bytes of its reader, and returns
    the reader's error, with no tree, when the reading fails. *)
Theorem Parse_spec :
  forall (l : Language) (fuel : nat) (input : string),
    (forall tree n,
        call (root l) fuel (source_of input) 0 = Ret (tree, None, n) ->
        ParseString l fuel input = Ret (tree, None))
    /\ (forall tree e n,
           fails_clean (root l) ->
           call (root l) fuel (source_of input) 0 = Ret (tree, Some e, n) ->
           ParseString l fuel input = Ret (None, Some e))
    /\ ParseString l fuel input
       = Parse l fuel {| contents := list_byte_of_string input;
                         read_error := None |}
    /\ (forall content e,
           Parse l fuel {| contents := content; read_error := Some e |}
           = Ret (None, Some e))
    /\ (forall typ,
           ParseString {| root := NewLiteralLexer typ "a" |} fuel "ab"
           = Ret (Some {| Typ := typ; Data := ["a"%byte]; Children := [] |},
                  None)).
Proof.
  intros l fuel input. split; [|split; [|split; [|split]]].
  - intros tree n H. unfold ParseString, strings_NewReader.
    rewrite Parse_call. fold (source_of input). rewrite H. reflexivity.
  - intros tree e n Hclean H. destruct (Hclean _ _ _ _ _ _ H) as [-> _].
    unfold ParseString, strings_NewReader.
    rewrite Parse_call. fold (source_of input). rewrite H. reflexivity.
  - reflexivity.
  - reflexivity.
  - reflexivity.
Qed.

Lemma Parse_spec_witness :
  ParseString {| root := NewPlusClosure (NewLiteralLexer "x" "x") |} 2%nat "xy"
  = Ret (Some {| Typ := "x+"; Data := [];
                 Children :=
                   [Some {| Typ := "x"; Data := ["x"%byte]; Children := [] |}]
              |}, None)
  /\ ParseString {| root := NewPlusClosure (NewLiteralLexer "x" "x") |} 2%nat
                 "yx"
     = Ret (None, Some (ExpectedLiteral "x" ["y"%byte; "x"%byte])).
Proof.
  split.
  - apply (proj1 (Parse_spec {| root := NewPlusClosure (NewLiteralLexer "x" "x") |}
                    2%nat "xy")
             (Some {| Typ := "x+"; Data := [];
                      Children :=
                        [Some {| Typ := "x"; Data := ["x"%byte];
                                 Children := [] |}] |}) 1).
    reflexivity.
  - apply (proj1 (proj2 (Parse_spec
                           {| root := NewPlusClosure (NewLiteralLexer "x" "x") |}
                           2%nat "yx"))
             None (ExpectedLiteral "x" ["y"%byte; "x"%byte]) 0).
    + apply NewPlusClosure_fails_clean.
    + reflexivity.
Defined.

(** ** The error invariant *)

(** C10: a lexer built by the constructors of the package (literal, regexp,
    concatenation, plus, star, optional, alternate, discard) returns a
    non-nil error only with a nil tree and a consumed length of 0; by this,
    the optional and the discard lexer of such a child report no tree and a
    consumed length of 0 when the child fails. *)
Theorem built_lexer_fails_clean :
  forall (l : Lexeme) (fuel : nat) (s : Source) (pos : Z)
         (tree : option ParseTree) (e : error) (n : Z),
    built l ->
    call l fuel s pos = Ret (tree, Some e, n) ->
    (tree = None /\ n = 0)
    /\ call (NewOptionClosure l) fuel s pos = Ret (None, None, 0)
    /\ call (NewDiscardLexer l) fuel s pos = Ret (None, None, 0).
Proof.
  intros l fuel s pos tree e n Hb H.
  destruct (built_fails_clean Hb _ _ _ H) as [-> ->].
  split; [auto|]. split.
  - cbn. fold (call l fuel s pos). rewrite H. reflexivity.
  - rewrite NewDiscardLexer_call, H. reflexivity.
Qed.

Lemma built_lexer_fails_clean_witness :
  ((None : option ParseTree) = None /\ 0 = 0)
  /\ call (NewOptionClosure
             (NewConcatLexer "c" [NewLiteralLexer "x" "x";
                                  NewLiteralLexer "y" "y"]))
          0%nat (source_of "xz") 0
     = Ret (None, None, 0)
  /\ call (NewDiscardLexer
             (NewConcatLexer "c" [NewLiteralLexer "x" "x";
                                  NewLiteralLexer "y" "y"]))
          0%nat (source_of "xz") 0
     = Ret (None, None, 0).
Proof.
  apply (@built_lexer_fails_clean
           (NewConcatLexer "c" [NewLiteralLexer "x" "x"; NewLiteralLexer "y" "y"])
           0%nat (source_of "xz") 0 None (ExpectedLiteral "y" ["z"%byte]) 0).
  - apply built_concat. repeat constructor.
  - reflexivity.
Defined.

(** ** Lexers that never fail *)

Lemma closure_loop_no_exit lexer s :
  (forall p tree e n, lexer s p <> Ret (tree, Some e, n)) ->
  forall n pos resp r, closure_loop n lexer s pos resp <> Ret r.
Proof.
  intros Hnf. induction n as [|n IH]; intros pos resp r H; [discriminate|].
  cbn [closure_loop] in H. child_call H. destruct err as [e|].
  - now apply (Hnf _ _ _ _ Hcall).
  - now apply IH in H.
Qed.

Lemma NewOptionClosure_never_fails lex : never_fails (NewOptionClosure lex).
Proof.
  intros fuel s pos tree e n H. cbn in H. child_call H.
Qed.

Lemma NewDiscardLexer_never_fails lex : never_fails (NewDiscardLexer lex).
Proof.
  intros fuel s pos tree e n H. cbn in H. child_call H.
Qed.

Lemma NewStarClosure_never_fails lex : never_fails (NewStarClosure lex).
Proof.
  intros fuel s pos tree e n H. cbn in H.
  destruct (closure_loop _ _ _ _ _) as [[resp pos']| |]; cbn in H;
    discriminate.
Qed.

Lemma NewStarClosure_no_return lex fuel s pos r :
  never_fails lex -> call (NewStarClosure lex) fuel s pos <> Ret r.
Proof.
  intros Hnf H. cbn in H. fold (call lex fuel) in H.
  destruct (closure_loop _ _ _ _ _) as [x| |] eqn:Hloop; try discriminate.
  now apply (@closure_loop_no_exit (call lex fuel) s
               (fun p => Hnf fuel s p)) in Hloop.
Qed.

Lemma NewPlusClosure_no_return lex fuel s pos r :
  never_fails lex -> call (NewPlusClosure lex) fuel s pos <> Ret r.
Proof.
  intros Hnf H. cbn in H. fold (call lex fuel) in H.
  child_call H. destruct err as [e|]; [now apply (Hnf _ _ _ _ _ _ Hcall)|].
  destruct (closure_loop _ _ _ _ _) as [x| |] eqn:Hloop; try discriminate.
  now apply (@closure_loop_no_exit (call lex fuel) s
               (fun p => Hnf fuel s p)) in Hloop.
Qed.

(** ** The shape of the trees *)

Lemma composite_ok_node typ data children :
  composite_ok {| Typ := typ; Data := data; Children := children |}
  = match children with
    | [] => true
    | _ :: _ => len data =? 0
    end && forallb entry_ok children.
Proof. reflexivity. Qed.

Lemma composite_ok_composite typ children :
  forallb entry_ok children = true ->
  composite_ok {| Typ := typ; Data := []; Children := children |} = true.
Proof.
  intros H. rewrite composite_ok_node, H. now destruct children.
Qed.

Lemma entry_ok_Some c :
  entry_ok c = true -> exists t, c = Some t /\ composite_ok t = true.
Proof.
  destruct c as [t|]; [eauto | discriminate].
Qed.

(** In a tree that is [composite_ok], the root with children has no raw
    bytes, and every entry of its child list is a tree, [composite_ok] in
    turn. *)
Lemma composite_ok_root t :
  composite_ok t = true ->
  (Children t <> [] -> Data t = [])
  /\ Forall (fun c => exists t', c = Some t' /\ composite_ok t' = true)
            (Children t).
Proof.
  destruct t as [typ data children]. rewrite composite_ok_node.
  intros H. apply andb_true_iff in H. destruct H as [Hd Hc]. split.
  - cbn. intros Hne. destruct children as [|c children]; [congruence|].
    destruct data; [reflexivity|]. discriminate.
  - cbn. apply Forall_forall. intros c Hin. apply entry_ok_Some.
    revert c Hin. now apply forallb_forall.
Qed.

(** A success of a lexer that gives trees is an entry for a child list. *)
Lemma success_entry_ok l fuel s pos tree n :
  trees_ok l -> gives_tree l ->
  call l fuel s pos = Ret (tree, None, n) ->
  entry_ok tree = true.
Proof.
  intros Hok Hg H. destruct tree as [t|].
  - cbn. eauto.
  - now apply Hg in H.
Qed.

Lemma reps_entries_ok lexer s pos matches final :
  (forall p tree n, lexer s p = Ret (tree, None, n) -> entry_ok tree = true) ->
  reps lexer s pos matches final ->
  forallb entry_ok (map fst matches) = true.
Proof.
  intros Hok. induction 1 as [|pos tree off matches final Hc _ IH];
    [reflexivity|].
  cbn [map fst forallb]. rewrite IH, andb_true_r. eauto.
Qed.

Lemma concat_entries_ok fuel s pos deps offset results total :
  Forall trees_ok deps ->
  concat_succeeds fuel s pos deps offset results total ->
  forallb entry_ok (contributed results) = true.
Proof.
  intros Hok H. induction H as [|dep deps offset tree l results total Hc _ IH];
    [reflexivity|].
  inv Hok. rewrite contributed_cons, forallb_app, IH by assumption.
  rewrite andb_true_r. destruct tree as [t|]; [|reflexivity].
  cbn. rewrite andb_true_r. eauto.
Qed.

Lemma NewLiteralLexer_trees_ok typ valid : trees_ok (NewLiteralLexer typ valid).
Proof.
  intros fuel s pos t e n H. cbn in H.
  destruct (ConsumeLiteral s (list_byte_of_string valid) pos).
  - inv H. reflexivity.
  - destruct (neighborhood_of s pos); cbn in H; discriminate.
Qed.

Lemma NewLiteralLexer_gives_tree typ valid :
  gives_tree (NewLiteralLexer typ valid).
Proof.
  intros fuel s pos tree n H. cbn in H.
  destruct (ConsumeLiteral s (list_byte_of_string valid) pos).
  - inv H. discriminate.
  - destruct (neighborhood_of s pos); cbn in H; discriminate.
Qed.

Lemma NewRegexpLexer_trees_ok typ valid : trees_ok (NewRegexpLexer typ valid).
Proof.
  intros fuel s pos t e n H. cbn in H.
  destruct (Consume s valid pos).
  - inv H. reflexivity.
  - destruct (neighborhood_of s pos); cbn in H; discriminate.
Qed.

Lemma NewRegexpLexer_gives_tree typ valid :
  gives_tree (NewRegexpLexer typ valid).
Proof.
  intros fuel s pos tree n H. cbn in H.
  destruct (Consume s valid pos).
  - inv H. discriminate.
  - destruct (neighborhood_of s pos); cbn in H; discriminate.
Qed.

Lemma NewConcatLexer_trees_ok name deps :
  Forall trees_ok deps -> trees_ok (NewConcatLexer name deps).
Proof.
  intros Hok fuel s pos t e n H.
  destruct e as [e|].
  - apply NewConcatLexer_fails_clean in H. destruct H; discriminate.
  - cbn in H. apply concat_loop_returns in H.
    destruct H as (results & Hs & Ht). cbn [app] in Ht.
    pose proof (concat_entries_ok Hok Hs) as Hall.
    destruct (contributed results) as [|a [|b children]]; cbn in Ht.
    + inv Ht. reflexivity.
    + subst a. cbn in Hall. now rewrite andb_true_r in Hall.
    + inv Ht. now apply composite_ok_composite.
Qed.

(** The concatenation lexer keeps the trees of its children only: the
    entries that it collects are not nil, and neither is its result. *)
Lemma contributed_Some results :
  Forall (fun c => c <> None) (contributed results).
Proof.
  induction results as [|[tree l] results IH]; [constructor|].
  rewrite contributed_cons. destruct tree; cbn [app]; [|assumption].
  constructor; [discriminate | assumption].
Qed.

Lemma NewConcatLexer_gives_tree name deps :
  gives_tree (NewConcatLexer name deps).
Proof.
  intros fuel s pos tree n H. cbn in H. apply concat_loop_returns in H.
  destruct H as (results & _ & ->). cbn [app].
  pose proof (contributed_Some results) as Hall.
  destruct (contributed results) as [|a [|b children]]; cbn; try discriminate.
  now inv Hall.
Qed.

Lemma NewPlusClosure_trees_ok lex :
  shapely lex -> trees_ok (NewPlusClosure lex).
Proof.
  intros [Hok [Hnf|Hg]] fuel s pos t e n H.
  - now apply NewPlusClosure_no_return in H.
  - cbn in H. fold (call lex fuel) in H.
    child_call H. destruct err as [e'|]; [discriminate|].
    destruct (closure_loop _ _ _ _ _) as [[resp pos']| |] eqn:Hloop;
      cbn in H; try discriminate.
    inv H. apply closure_loop_returns in Hloop.
    destruct Hloop as (matches & Hr & _ & ->).
    cbn [Typ Data Children append_child app].
    apply composite_ok_composite. cbn [forallb].
    rewrite (@success_entry_ok lex fuel s pos next off Hok Hg Hcall).
    apply (reps_entries_ok
             (fun p tree m => @success_entry_ok lex fuel s p tree m Hok Hg) Hr).
Qed.

Lemma NewPlusClosure_gives_tree lex : gives_tree (NewPlusClosure lex).
Proof.
  intros fuel s pos tree n H. cbn in H.
  child_call H. destruct err as [e'|]; [discriminate|].
  destruct (closure_loop _ _ _ _ _) as [[resp pos']| |]; cbn in H;
    try discriminate.
  inv H. discriminate.
Qed.

Lemma NewStarClosure_trees_ok lex :
  shapely lex -> trees_ok (NewStarClosure lex).
Proof.
  intros [Hok [Hnf|Hg]] fuel s pos t e n H.
  - now apply NewStarClosure_no_return in H.
  - cbn in H. fold (call lex fuel) in H.
    destruct (closure_loop _ _ _ _ _) as [[resp pos']| |] eqn:Hloop;
      cbn in H; try discriminate.
    inv H. apply closure_loop_returns in Hloop.
    destruct Hloop as (matches & Hr & _ & ->).
    cbn [Typ Data Children app].
    apply composite_ok_composite.
    apply (reps_entries_ok
             (fun p tree m => @success_entry_ok lex fuel s p tree m Hok Hg) Hr).
Qed.

Lemma NewStarClosure_gives_tree lex : gives_tree (NewStarClosure lex).
Proof.
  intros fuel s pos tree n H. cbn in H.
  destruct (closure_loop _ _ _ _ _) as [[resp pos']| |]; cbn in H;
    try discriminate.
  inv H. discriminate.
Qed.

Lemma NewOptionClosure_trees_ok lex :
  trees_ok lex -> trees_ok (NewOptionClosure lex).
Proof.
  intros Hok fuel s pos t e n H. cbn in H. fold (call lex fuel s pos) in H.
  child_call H. inv H. eauto.
Qed.

Lemma NewAlternateLexer_trees_ok name lhs rhs :
  trees_ok lhs -> trees_ok rhs -> trees_ok (NewAlternateLexer name lhs rhs).
Proof.
  intros Hl Hr fuel s pos t e n H. cbn in H.
  fold (call lhs fuel s pos) (call rhs fuel s pos) in H.
  child_call H. destruct err as [el|].
  - child_call H. destruct err as [er|]; inv H. eauto.
  - inv H. eauto.
Qed.

(** An alternate lexer gives trees when both children do, and never fails
    as soon as one child never does. *)
Lemma NewAlternateLexer_gives name lhs rhs :
  never_fails lhs \/ gives_tree lhs ->
  never_fails rhs \/ gives_tree rhs ->
  never_fails (NewAlternateLexer name lhs rhs)
  \/ gives_tree (NewAlternateLexer name lhs rhs).
Proof.
  intros [Hl|Hl] Hr.
  - left. intros fuel s pos tree e n H. cbn in H.
    fold (call lhs fuel s pos) in H. child_call H.
    destruct err as [el|]; [|discriminate]. now apply Hl in Hcall.
  - destruct Hr as [Hr|Hr].
    + left. intros fuel s pos tree e n H. cbn in H.
      fold (call lhs fuel s pos) (call rhs fuel s pos) in H. child_call H.
      destruct err as [el|]; [|discriminate].
      child_call H. destruct err as [er|]; [|discriminate].
      now apply Hr in Hcall0.
    + right. intros fuel s pos tree n H. cbn in H.
      fold (call lhs fuel s pos) (call rhs fuel s pos) in H. child_call H.
      destruct err as [el|].
      * child_call H. destruct err as [er|]; inv H. eauto.
      * inv H. eauto.
Qed.

Lemma NewDiscardLexer_trees_ok lex : trees_ok (NewDiscardLexer lex).
Proof.
  intros fuel s pos t e n H. rewrite NewDiscardLexer_call in H.
  destruct (call lex fuel s pos) as [[[tree err] off]| |]; discriminate.
Qed.

Lemma is_terminal_shapely l : is_terminal l -> shapely l.
Proof.
  destruct 1 as [typ valid | typ valid]; split.
  - apply NewLiteralLexer_trees_ok.
  - right. apply NewLiteralLexer_gives_tree.
  - apply NewRegexpLexer_trees_ok.
  - right. apply NewRegexpLexer_gives_tree.
Qed.

(** The combinators keep the trees in shape, over any lexers that do. *)
Lemma combined_shapely discards leaf l :
  (forall l', leaf l' -> shapely l') ->
  combined discards leaf l ->
  shapely l.
Proof.
  intros Hleaf Hl.
  induction Hl using combined_mut
    with (P0 := fun deps _ => Forall shapely deps).
  - now apply Hleaf.
  - split.
    + apply NewConcatLexer_trees_ok.
      eapply Forall_impl; [|eassumption]. now intros d [Hd _].
    + right. apply NewConcatLexer_gives_tree.
  - split; [now apply NewPlusClosure_trees_ok|].
    right. apply NewPlusClosure_gives_tree.
  - split; [now apply NewStarClosure_trees_ok|].
    right. apply NewStarClosure_gives_tree.
  - split; [apply NewOptionClosure_trees_ok; apply IHHl|].
    left. apply NewOptionClosure_never_fails.
  - destruct IHHl1 as [Hok1 Hg1], IHHl2 as [Hok2 Hg2]. split.
    + now apply NewAlternateLexer_trees_ok.
    + now apply NewAlternateLexer_gives.
  - split; [apply NewDiscardLexer_trees_ok|].
    left. apply NewDiscardLexer_never_fails.
  - constructor.
  - now constructor.
Qed.

(** The lexers built by the constructors are the lexers combined from the
    literal and the regexp lexers. *)
Lemma built_combined l : built l -> combined true is_terminal l.
Proof.
  induction 1 using built_mut
    with (P0 := fun deps _ => all_combined true is_terminal deps).
  - apply combined_leaf. constructor.
  - apply combined_leaf. constructor.
  - now apply combined_concat.
  - now apply combined_plus.
  - now apply combined_star.
  - now apply combined_option.
  - now apply combined_alternate.
  - now apply combined_discard.
  - constructor.
  - now constructor.
Qed.

Lemma built_shapely l : built l -> shapely l.
Proof.
  intros H. apply (combined_shapely is_terminal_shapely (built_combined H)).
Qed.

(** C9, as the specification words it, fails: the star of the literal ['x']
    succeeds on the empty input with a node that has neither children nor
    raw bytes. *)
Lemma spec_invariant_counterexample :
  ~ (forall (l : Lexeme) (fuel : nat) (s : Source) (pos : Z)
            (t : ParseTree) (n : Z),
        built l ->
        call l fuel s pos = Ret (Some t, None, n) ->
        spec_invariant t = true).
Proof.
  intros H.
  specialize (H (NewStarClosure (NewLiteralLexer "x" "x")) 1%nat
                (source_of "") 0
                {| Typ := "x*"; Data := []; Children := [] |} 0).
  assert (Hf : false = true);
    [apply H; [repeat constructor | reflexivity] | discriminate Hf].
Qed.

(** C9, amended: every tree that a match returns keeps the invariant but
    for the raw bytes of its leaves.  Throughout the tree, a node with
    children has empty raw bytes, and no entry of a child list is nil: a
    match that gave no tree is absent from its parent's child list.  This
    holds of every lexer that the concatenation, plus, star, optional,
    alternate and discard combinators build over lexers that keep it: the
    literal and the regexp lexers do, so that it holds of every lexer built
    by the constructors of the package.  (The raw bytes of a leaf may be
    empty, as those of the star that matched nothing are.) *)
Theorem lexer_trees_composite :
  forall (leaf : Lexeme -> Prop) (l : Lexeme) (fuel : nat) (s : Source)
         (pos : Z) (t : ParseTree) (e : option error) (n : Z),
    (forall l', leaf l' -> shapely l') ->
    combined true leaf l ->
    call l fuel s pos = Ret (Some t, e, n) ->
    composite_ok t = true
    /\ (Children t <> [] -> Data t = [])
    /\ Forall (fun c => exists t', c = Some t' /\ composite_ok t' = true)
              (Children t).
Proof.
  intros leaf l fuel s pos t e n Hleaf Hl H.
  destruct (combined_shapely Hleaf Hl) as [Hok _].
  pose proof (Hok _ _ _ _ _ _ H) as Ht.
  split; [assumption|]. now apply composite_ok_root.
Qed.

Lemma lexer_trees_composite_witness :
  composite_ok
    {| Typ := "c"; Data := [];
       Children :=
         [Some {| Typ := "x+"; Data := [];
                  Children :=
                    [Some {| Typ := "x"; Data := ["x"%byte]; Children := [] |};
                     Some {| Typ := "x"; Data := ["x"%byte]; Children := [] |}]
               |};
          Some {| Typ := "z"; Data := ["z"%byte]; Children := [] |}] |} = true
  /\ ([Some {| Typ := "x+"; Data := [];
               Children :=
                 [Some {| Typ := "x"; Data := ["x"%byte]; Children := [] |};
                  Some {| Typ := "x"; Data := ["x"%byte]; Children := [] |}]
            |};
       Some {| Typ := "z"; Data := ["z"%byte]; Children := [] |}] <> []
      -> @nil byte = [])
  /\ Forall (fun c => exists t', c = Some t' /\ composite_ok t' = true)
            [Some {| Typ := "x+"; Data := [];
                     Children :=
                       [Some {| Typ := "x"; Data := ["x"%byte];
                                Children := [] |};
                        Some {| Typ := "x"; Data := ["x"%byte];
                                Children := [] |}] |};
             Some {| Typ := "z"; Data := ["z"%byte]; Children := [] |}].
Proof.
  apply (@lexer_trees_composite is_terminal
           (NewConcatLexer "c" [NewPlusClosure (NewLiteralLexer "x" "x");
                                NewDiscardLexer (NewLiteralLexer "y" "y");
                                NewOptionClosure (NewLiteralLexer "w" "w");
                                NewLiteralLexer "z" "z"])
           3%nat (source_of "xxyz") 0
           {| Typ := "c"; Data := [];
              Children :=
                [Some {| Typ := "x+"; Data := [];
                         Children :=
                           [Some {| Typ := "x"; Data := ["x"%byte];
                                    Children := [] |};
                            Some {| Typ := "x"; Data := ["x"%byte];
                                    Children := [] |}] |};
                 Some {| Typ := "z"; Data := ["z"%byte]; Children := [] |}] |}
           None 4 is_terminal_shapely).
  - combined_of_terminals.
  - reflexivity.
Defined.

(** * Further properties of [language.go] *)

(** ** Closures over a child that never fails *)

(** X1: The loop of a closure is left only by an error of the child.  The
    optional, the discard and the star lexer never return one, so that a star
    or a plus of any of them returns on no input at all, whatever the child
    below is: the call panics or runs for ever. *)
Theorem closure_of_unfailing_child_never_returns :
  forall (lex : Lexeme) (fuel : nat) (s : Source) (pos : Z) (r : LexResult),
    call (NewStarClosure (NewOptionClosure lex)) fuel s pos <> Ret r
    /\ call (NewStarClosure (NewDiscardLexer lex)) fuel s pos <> Ret r
    /\ call (NewStarClosure (NewStarClosure lex)) fuel s pos <> Ret r
    /\ call (NewPlusClosure (NewOptionClosure lex)) fuel s pos <> Ret r
    /\ call (NewPlusClosure (NewDiscardLexer lex)) fuel s pos <> Ret r
    /\ call (NewPlusClosure (NewStarClosure lex)) fuel s pos <> Ret r.
Proof.
  intros lex fuel s pos r. repeat split.
  - apply NewStarClosure_no_return, NewOptionClosure_never_fails.
  - apply NewStarClosure_no_return, NewDiscardLexer_never_fails.
  - apply NewStarClosure_no_return, NewStarClosure_never_fails.
  - apply NewPlusClosure_no_return, NewOptionClosure_never_fails.
  - apply NewPlusClosure_no_return, NewDiscardLexer_never_fails.
  - apply NewPlusClosure_no_return, NewStarClosure_never_fails.
Qed.

(** ** Laws of the combinators *)

(** X2: Ordered choice is associative: the two ways of nesting three
    alternatives give the same result on every input, whatever the names of
    the four alternate lexers. *)
Theorem NewAlternateLexer_assoc :
  forall (n1 n2 n3 n4 : string) (a b c : Lexeme) (fuel : nat) (s : Source)
         (pos : Z),
    call (NewAlternateLexer n1 (NewAlternateLexer n2 a b) c) fuel s pos
    = call (NewAlternateLexer n3 a (NewAlternateLexer n4 b c)) fuel s pos.
Proof.
  intros n1 n2 n3 n4 a b c fuel s pos. cbn.
  fold (call a fuel s pos) (call b fuel s pos) (call c fuel s pos).
  destruct (call a fuel s pos) as [[[ta [ea|]] na]| |]; cbn; try reflexivity.
  destruct (call b fuel s pos) as [[[tb [eb|]] nb]| |]; cbn; try reflexivity.
  destruct (call c fuel s pos) as [[[tc [ec|]] nc]| |]; reflexivity.
Qed.

(** X3: The optional and the discard lexer absorb one another: a discard of
    a discard or of an optional is the discard of the child, an optional of
    an optional is the optional of the child, and an optional of a discard is
    the discard. *)
Theorem wrappers_absorb :
  forall (lex : Lexeme) (fuel : nat) (s : Source) (pos : Z),
    call (NewDiscardLexer (NewDiscardLexer lex)) fuel s pos
    = call (NewDiscardLexer lex) fuel s pos
    /\ call (NewDiscardLexer (NewOptionClosure lex)) fuel s pos
       = call (NewDiscardLexer lex) fuel s pos
    /\ call (NewOptionClosure (NewOptionClosure lex)) fuel s pos
       = call (NewOptionClosure lex) fuel s pos
    /\ call (NewOptionClosure (NewDiscardLexer lex)) fuel s pos
       = call (NewDiscardLexer lex) fuel s pos.
Proof.
  intros lex fuel s pos. cbn. fold (call lex fuel s pos).
  destruct (call lex fuel s pos) as [[[t e] n]| |]; cbn; auto.
Qed.

(** ** The rule placeholder *)

(** X4: [NewRuleLexer] leaves the [Lexer] of the placeholder nil.  Until
    something else sets it, a call of the placeholder panics, and so does
    every combinator whose first call is the placeholder: no error is
    returned, and an alternate does not go on to its right child. *)
Theorem NewRuleLexer_unresolved_panics :
  forall (rule name : string) (lex : Lexeme) (deps : list Lexeme)
         (fuel : nat) (s : Source) (pos : Z),
    Name (NewRuleLexer rule) = String.append "~" rule
    /\ call (NewRuleLexer rule) fuel s pos = Panic
    /\ call (NewConcatLexer name (NewRuleLexer rule :: deps)) fuel s pos = Panic
    /\ call (NewPlusClosure (NewRuleLexer rule)) fuel s pos = Panic
    /\ call (NewStarClosure (NewRuleLexer rule)) (S fuel) s pos = Panic
    /\ call (NewOptionClosure (NewRuleLexer rule)) fuel s pos = Panic
    /\ call (NewAlternateLexer name (NewRuleLexer rule) lex) fuel s pos = Panic
    /\ call (NewDiscardLexer (NewRuleLexer rule)) fuel s pos = Panic
    /\ Parse {| root := NewRuleLexer rule |} fuel
             {| contents := buf s; read_error := None |} = Panic.
Proof.
  intros. repeat split; reflexivity.
Qed.

(** ** The failures of the terminals *)

Lemma wrap_spec (z : Z) :
  exists q, Int.wrap z = z - Int.modulus * q /\ Int.in_range (Int.wrap z).
Proof.
  exists ((z + Int.half) / Int.modulus).
  unfold Int.wrap, Int.in_range.
  assert (Hm : 0 < Int.modulus) by reflexivity.
  assert (Hh : Int.modulus = 2 * Int.half) by reflexivity.
  pose proof (Z.div_mod (z + Int.half) Int.modulus ltac:(lia)) as Hd.
  pose proof (Z.mod_pos_bound (z + Int.half) Int.modulus Hm) as Hb.
  lia.
Qed.

Lemma len_skipn {A : Type} (l : list A) (p : Z) :
  0 <= p <= len l -> len (skipn (Z.to_nat p) l) = len l - p.
Proof.
  unfold len. intros H. rewrite length_skipn. lia.
Qed.

(** When the slice of the neighbourhood does not panic, [pos] is inside the
    buffer and the slice is the ten bytes at [pos], or those that are left. *)
Lemma neighborhood_of_returns s pos nb :
  neighborhood_of s pos = Ret nb ->
  0 <= pos <= len (buf s)
  /\ nb = firstn 10 (skipn (Z.to_nat pos) (buf s)).
Proof.
  unfold neighborhood_of, slice, int_add, Int.add.
  destruct (wrap_spec (pos + 10)) as (q & Hq & Hr). unfold Int.in_range in Hr.
  assert (Hm : Int.modulus = 18446744073709551616) by reflexivity.
  assert (Hh : Int.half = 9223372036854775808) by reflexivity.
  rewrite Hm in Hq. rewrite Hh in Hr. clear Hm Hh.
  set (w := Int.wrap (pos + 10)) in *.
  destruct (Z.ltb_spec (len (buf s)) w) as [Hlt|Hge].
  - destruct (Z.leb_spec 0 pos), (Z.leb_spec pos (len (buf s))),
      (Z.leb_spec (len (buf s)) (len (buf s))); cbn [andb]; try discriminate.
    intros Heq. inv Heq. split; [lia|].
    assert (Hw : w = pos + 10) by lia.
    pose proof (len_skipn (buf s) (p := pos) ltac:(lia)) as Hl.
    unfold len in *.
    rewrite !firstn_all2; [reflexivity | lia | lia].
  - destruct (Z.leb_spec 0 pos), (Z.leb_spec pos w),
      (Z.leb_spec w (len (buf s))); cbn [andb]; try discriminate.
    intros Heq. inv Heq. split; [lia|].
    assert (Hw : w = pos + 10) by lia.
    replace (w - pos) with 10 by lia. reflexivity.
Qed.

(** Inside a buffer that is not larger than an [int] can index, the slice
    of the neighbourhood does not panic. *)
Lemma neighborhood_of_inside s pos :
  len (buf s) + 10 < Int.half ->
  0 <= pos <= len (buf s) ->
  neighborhood_of s pos = Ret (firstn 10 (skipn (Z.to_nat pos) (buf s))).
Proof.
  intros Hlen Hpos.
  destruct (neighborhood_of s pos) as [nb| |] eqn:E.
  - now apply neighborhood_of_returns in E as [_ ->].
  - exfalso. revert E. unfold neighborhood_of, slice, int_add, Int.add.
    rewrite wrap_in_range by (unfold Int.in_range; lia).
    destruct (Z.ltb_spec (len (buf s)) (pos + 10));
      [destruct (Z.leb_spec 0 pos), (Z.leb_spec pos (len (buf s))),
         (Z.leb_spec (len (buf s)) (len (buf s)))
      | destruct (Z.leb_spec 0 pos), (Z.leb_spec pos (pos + 10)),
         (Z.leb_spec (pos + 10) (len (buf s)))];
      cbn [andb]; try discriminate; lia.
  - exfalso. revert E. unfold neighborhood_of, slice.
    destruct (_ && _); discriminate.
Qed.

(** X5: A failure of the literal or of the regexp lexer is returned only at a
    position inside the buffer, and reports what was expected together with
    the ten bytes of input at that position, or as many as are left.  (At a
    position outside the buffer the slice expression of the report panics.) *)
Theorem terminal_failure_report :
  forall (typ valid : string) (re : Regexp) (fuel : nat) (s : Source) (pos : Z)
         (tree : option ParseTree) (e : error) (n : Z),
    (call (NewLiteralLexer typ valid) fuel s pos = Ret (tree, Some e, n) ->
     0 <= pos <= len (buf s)
     /\ e = ExpectedLiteral valid (firstn 10 (skipn (Z.to_nat pos) (buf s))))
    /\ (call (NewRegexpLexer typ re) fuel s pos = Ret (tree, Some e, n) ->
        0 <= pos <= len (buf s)
        /\ e = ExpectedRegexMatch (re_String re)
                 (firstn 10 (skipn (Z.to_nat pos) (buf s)))).
Proof.
  intros typ valid re fuel s pos tree e n. split; intros H; cbn in H.
  - destruct (ConsumeLiteral s (list_byte_of_string valid) pos);
      [discriminate|].
    destruct (neighborhood_of s pos) as [nb| |] eqn:E; cbn in H;
      try discriminate.
    inv H. apply neighborhood_of_returns in E as [Hpos ->]. auto.
  - destruct (Consume s re pos); [discriminate|].
    destruct (neighborhood_of s pos) as [nb| |] eqn:E; cbn in H;
      try discriminate.
    inv H. apply neighborhood_of_returns in E as [Hpos ->]. auto.
Qed.

Lemma terminal_failure_report_witness :
  0 <= 2 <= len (buf (source_of "ab0123456789xyz"))
  /\ ExpectedLiteral "x" (list_byte_of_string "0123456789")
     = ExpectedLiteral "x"
         (firstn 10 (skipn (Z.to_nat 2) (buf (source_of "ab0123456789xyz")))).
Proof.
  apply (proj1 (@terminal_failure_report "t" "x"
                  {| re_String := ""; re_match_prefix := fun _ => None |}
                  0%nat (source_of "ab0123456789xyz") 2 None
                  (ExpectedLiteral "x" (list_byte_of_string "0123456789")) 0)).
  reflexivity.
Defined.

(** ** Plus is the child followed by its star *)

Lemma wrap_add_wrap_r (a b : Z) : Int.wrap (a + Int.wrap b) = Int.wrap (a + b).
Proof.
  rewrite (Z.add_comm a (Int.wrap b)), wrap_add_wrap_l. f_equal. lia.
Qed.

Lemma wrap_sub_wrap_r (a b : Z) : Int.wrap (a - Int.wrap b) = Int.wrap (a - b).
Proof.
  destruct (wrap_spec b) as (q & -> & _). unfold Int.wrap.
  replace (a - (b - Int.modulus * q) + Int.half)
    with (a - b + Int.half + q * Int.modulus) by lia.
  now rewrite Z_mod_plus_full.
Qed.

(** Whether the loop returns, panics or runs out of fuel does not depend on
    the node it fills. *)
Lemma closure_loop_no_return lexer s :
  forall n pos resp resp',
    (closure_loop n lexer s pos resp = Panic ->
     closure_loop n lexer s pos resp' = Panic)
    /\ (closure_loop n lexer s pos resp = OutOfFuel ->
        closure_loop n lexer s pos resp' = OutOfFuel).
Proof.
  induction n as [|n IH]; intros pos resp resp'; cbn [closure_loop].
  - split; [discriminate | reflexivity].
  - destruct (lexer s pos) as [[[next [e|]] off]| |]; cbn [bind];
      try (split; (discriminate || reflexivity)).
    apply IH.
Qed.

(** X6: After a first match the plus lexer does what the star lexer does from
    where the match stopped: it returns the star's entries after the first
    tree, consumes the length of the match more, and does not return when
    the star does not. *)
Theorem NewPlusClosure_is_child_then_star :
  forall (lex : Lexeme) (fuel : nat) (s : Source) (pos : Z)
         (next : option ParseTree) (off : Z),
    call lex fuel s pos = Ret (next, None, off) ->
    call (NewPlusClosure lex) fuel s pos
    = match call (NewStarClosure lex) fuel s (int_add pos off) with
      | Ret (star, _, m) =>
          Ret (Some {| Typ := String.append (Name lex) "+"; Data := [];
                       Children := next :: match star with
                                           | Some st => Children st
                                           | None => []
                                           end |},
               None, Int.wrap (off + m))
      | Panic => Panic
      | OutOfFuel => OutOfFuel
      end.
Proof.
  intros lex fuel s pos next off Hc.
  cbn [call NewPlusClosure NewStarClosure Lexer]. fold (call lex fuel).
  rewrite Hc. cbn [bind].
  set (plus0 := append_child _ next).
  set (star0 := {| Typ := String.append (Name lex) "*"; Data := [];
                   Children := [] |}).
  destruct (closure_loop fuel (call lex fuel) s (int_add pos off) star0)
    as [[rs p]| |] eqn:Hstar.
  - apply closure_loop_returns in Hstar.
    destruct Hstar as (matches & Hr & Hn & ->).
    rewrite (closure_loop_reps Hr) by assumption.
    cbn. f_equal. f_equal.
    unfold int_sub, int_add, Int.sub, Int.add.
    rewrite wrap_add_wrap_r. rewrite Z.add_sub_assoc.
    rewrite wrap_sub_wrap_r. f_equal. lia.
  - now rewrite (proj1 (closure_loop_no_return _ _ _ _ star0 plus0) Hstar).
  - now rewrite (proj2 (closure_loop_no_return _ _ _ _ star0 plus0) Hstar).
Qed.

Lemma NewPlusClosure_is_child_then_star_witness :
  call (NewPlusClosure (NewLiteralLexer "x" "x")) 3%nat (source_of "xxxy") 0
  = match call (NewStarClosure (NewLiteralLexer "x" "x")) 3%nat
               (source_of "xxxy") (int_add 0 1) with
    | Ret (star, _, m) =>
        Ret (Some {| Typ := "x+"; Data := [];
                     Children :=
                       Some {| Typ := "x"; Data := ["x"%byte]; Children := [] |}
                       :: match star with
                          | Some st => Children st
                          | None => []
                          end |},
             None, Int.wrap (1 + m))
    | Panic => Panic
    | OutOfFuel => OutOfFuel
    end.
Proof.
  apply (@NewPlusClosure_is_child_then_star (NewLiteralLexer "x" "x") 3%nat
           (source_of "xxxy") 0).
  reflexivity.
Defined.

(** ** Staying inside the buffer *)

Lemma int_add_inside s (p n : Z) :
  addressable s -> 0 <= p -> 0 <= n -> p + n <= len (buf s) ->
  int_add p n = p + n.
Proof.
  unfold addressable. intros Hs Hp Hn Hle. apply wrap_in_range.
  unfold Int.in_range. assert (0 < Int.half) by reflexivity. lia.
Qed.

Lemma int_sub_inside s (a b : Z) :
  addressable s -> 0 <= b <= a -> a <= len (buf s) -> int_sub a b = a - b.
Proof.
  unfold addressable. intros Hs Hb Ha. apply wrap_in_range.
  unfold Int.in_range. assert (0 < Int.half) by reflexivity. lia.
Qed.

(** The children of a concatenation that stay inside the buffer leave the
    cumulative position inside it, without any wrap-around. *)
Lemma concat_succeeds_inside fuel s pos deps offset results total :
  addressable s ->
  Forall in_bounds deps ->
  concat_succeeds fuel s pos deps offset results total ->
  0 <= pos -> 0 <= offset -> pos + offset <= len (buf s) ->
  total = offset + sumZ (map snd results)
  /\ Forall (fun r => 0 <= snd r) results
  /\ pos + total <= len (buf s).
Proof.
  intros Hs Hdeps H.
  induction H as [offset | dep deps offset tree l results total Hc _ IH];
    intros Hpos Hoff Hle.
  - cbn. split; [lia|]. split; [constructor | lia].
  - inv Hdeps. rename H1 into Hdep, H2 into Hrest.
    rewrite (int_add_inside Hs) in Hc; [|lia..].
    assert (Hin0 : 0 <= pos + offset <= len (buf s)) by lia.
    destruct (Hdep _ _ _ _ _ Hs Hin0 Hc) as [Hl Hin].
    rewrite (int_add_inside Hs) in IH; [|lia..].
    assert (Hoff' : 0 <= offset + l) by lia.
    assert (Hle' : pos + (offset + l) <= len (buf s)) by lia.
    destruct (IH Hrest Hpos Hoff' Hle') as (Ht & Hall & Hend).
    change (sumZ (map snd ((tree, l) :: results)))
      with (l + sumZ (map snd results)).
    split; [lia|]. split; [|assumption]. constructor; assumption.
Qed.

Lemma sumZ_nonneg (results : list (option ParseTree * Z)) :
  Forall (fun r => 0 <= snd r) results -> 0 <= sumZ (map snd results).
Proof.
  induction 1 as [|r results Hr _ IH]; cbn; [lia|].
  fold (sumZ (map snd results)). lia.
Qed.

(** The matches of a repetition whose child stays inside the buffer end
    inside it. *)
Lemma reps_inside lexer s pos matches final :
  addressable s ->
  (forall p tree n,
      0 <= p <= len (buf s) ->
      lexer s p = Ret (tree, None, n) -> 0 <= n /\ p + n <= len (buf s)) ->
  reps lexer s pos matches final ->
  0 <= pos <= len (buf s) ->
  final = pos + sumZ (map snd matches)
  /\ Forall (fun r => 0 <= snd r) matches
  /\ final <= len (buf s).
Proof.
  intros Hs Hin H.
  induction H as [pos tree e off _ | pos tree off matches final Hc _ IH];
    intros Hpos.
  - cbn. split; [lia|]. split; [constructor | lia].
  - destruct (Hin _ _ _ Hpos Hc) as [Hoff Hle].
    rewrite (int_add_inside Hs) in IH; [|lia..].
    assert (Hpos' : 0 <= pos + off <= len (buf s)) by lia.
    destruct (IH Hpos') as (Hf & Hall & Hend).
    change (sumZ (map snd ((tree, off) :: matches)))
      with (off + sumZ (map snd matches)).
    split; [lia|]. split; [|assumption]. constructor; assumption.
Qed.

Lemma NewConcatLexer_in_bounds name deps :
  Forall in_bounds deps -> in_bounds (NewConcatLexer name deps).
Proof.
  intros Hdeps fuel s pos tree n Hs Hpos H. cbn in H.
  apply concat_loop_returns in H. destruct H as (results & Hr & _).
  destruct (concat_succeeds_inside Hs Hdeps Hr) as (Ht & Hall & Hend);
    try lia.
  pose proof (sumZ_nonneg Hall). lia.
Qed.

Lemma NewStarClosure_in_bounds lex :
  in_bounds lex -> in_bounds (NewStarClosure lex).
Proof.
  intros Hlex fuel s pos tree n Hs Hpos H. cbn in H. fold (call lex fuel) in H.
  destruct (closure_loop _ _ _ _ _) as [[resp pos']| |] eqn:Hloop;
    cbn in H; try discriminate.
  inv H. apply closure_loop_returns in Hloop.
  destruct Hloop as (matches & Hr & _ & _).
  destruct (reps_inside Hs (fun p t n => Hlex fuel s p t n Hs) Hr Hpos)
    as (Hf & Hall & Hend).
  pose proof (sumZ_nonneg Hall).
  rewrite (int_sub_inside Hs); [|lia..]. lia.
Qed.

Lemma NewPlusClosure_in_bounds lex :
  in_bounds lex -> in_bounds (NewPlusClosure lex).
Proof.
  intros Hlex fuel s pos tree n Hs Hpos H. cbn in H. fold (call lex fuel) in H.
  child_call H. destruct err as [e|]; [discriminate|].
  destruct (closure_loop _ _ _ _ _) as [[resp pos']| |] eqn:Hloop;
    cbn in H; try discriminate.
  inv H. apply closure_loop_returns in Hloop.
  destruct Hloop as (matches & Hr & _ & _).
  destruct (Hlex _ _ _ _ _ Hs Hpos Hcall) as [Hoff Hle].
  rewrite (int_add_inside Hs) in Hr; [|lia..].
  assert (Hpos' : 0 <= pos + off <= len (buf s)) by lia.
  destruct (reps_inside Hs (fun p t n => Hlex fuel s p t n Hs) Hr Hpos')
    as (Hf & Hall & Hend).
  pose proof (sumZ_nonneg Hall).
  rewrite (int_sub_inside Hs); [|lia..]. lia.
Qed.

Lemma NewOptionClosure_in_bounds lex :
  fails_clean lex -> in_bounds lex -> in_bounds (NewOptionClosure lex).
Proof.
  intros Hclean Hlex fuel s pos tree n Hs Hpos H. cbn in H.
  fold (call lex fuel s pos) in H. child_call H. inv H.
  destruct err as [e|].
  - destruct (Hclean _ _ _ _ _ _ Hcall) as [_ ->]. lia.
  - eapply Hlex; eauto.
Qed.

Lemma NewAlternateLexer_in_bounds name lhs rhs :
  in_bounds lhs -> in_bounds rhs -> in_bounds (NewAlternateLexer name lhs rhs).
Proof.
  intros Hl Hr fuel s pos tree n Hs Hpos H. cbn in H.
  fold (call lhs fuel s pos) (call rhs fuel s pos) in H.
  child_call H. destruct err as [el|].
  - child_call H. destruct err as [er|]; inv H. eapply Hr; eauto.
  - inv H. eapply Hl; eauto.
Qed.

Lemma NewDiscardLexer_in_bounds lex :
  fails_clean lex -> in_bounds lex -> in_bounds (NewDiscardLexer lex).
Proof.
  intros Hclean Hlex fuel s pos tree n Hs Hpos H.
  rewrite NewDiscardLexer_call in H.
  destruct (call lex fuel s pos) as [[[t err] off]| |] eqn:Hcall;
    try discriminate.
  inv H. destruct err as [e|].
  - destruct (Hclean _ _ _ _ _ _ Hcall) as [_ ->]. lia.
  - eapply Hlex; eauto.
Qed.

Lemma combined_fails_clean discards leaf l :
  (forall l', leaf l' -> fails_clean l') ->
  combined discards leaf l -> fails_clean l.
Proof.
  intros Hleaf. destruct 1.
  - now apply Hleaf.
  - apply NewConcatLexer_fails_clean.
  - apply NewPlusClosure_fails_clean.
  - apply NewStarClosure_fails_clean.
  - apply NewOptionClosure_fails_clean.
  - apply NewAlternateLexer_fails_clean.
  - apply NewDiscardLexer_fails_clean.
Qed.

Lemma combined_in_bounds discards leaf l :
  (forall l', leaf l' -> fails_clean l' /\ in_bounds l') ->
  combined discards leaf l ->
  in_bounds l.
Proof.
  intros Hleaf Hl.
  assert (Hclean : forall l', combined discards leaf l' -> fails_clean l').
  { intros l'. apply combined_fails_clean. intros l'' H''.
    now apply Hleaf. }
  induction Hl using combined_mut
    with (P0 := fun deps _ => Forall in_bounds deps).
  - now apply Hleaf.
  - now apply NewConcatLexer_in_bounds.
  - now apply NewPlusClosure_in_bounds.
  - now apply NewStarClosure_in_bounds.
  - apply NewOptionClosure_in_bounds; auto.
  - now apply NewAlternateLexer_in_bounds.
  - apply NewDiscardLexer_in_bounds; auto.
  - constructor.
  - now constructor.
Qed.

(** The terminals stay inside the buffer. *)
Lemma has_prefix_firstn (p b : list byte) :
  has_prefix p b = true ->
  firstn (List.length p) b = p /\ (List.length p <= List.length b)%nat.
Proof.
  revert b. induction p as [|x p IH]; intros b H; cbn in *.
  - split; [reflexivity | lia].
  - destruct b as [|y b]; [discriminate|].
    apply andb_true_iff in H. destruct H as [Hxy Hp].
    apply byte_dec_bl in Hxy. subst y.
    destruct (IH _ Hp) as [-> Hl]. cbn. split; [reflexivity | lia].
Qed.

Lemma ConsumeLiteral_Some s lit pos m :
  ConsumeLiteral s lit pos = Some m ->
  m = lit /\ 0 <= pos /\ pos + len lit <= len (buf s)
  /\ input_slice s pos (len lit) = lit.
Proof.
  unfold ConsumeLiteral.
  destruct (Z.leb_spec 0 pos) as [Hp|]; [|discriminate].
  destruct (Z.leb_spec pos (len (buf s))) as [Hl|]; [|discriminate].
  cbn [andb].
  destruct (has_prefix lit (skipn (Z.to_nat pos) (buf s))) eqn:Hpre;
    [|discriminate].
  intros H. inv H. apply has_prefix_firstn in Hpre. destruct Hpre as [Hf Hle].
  pose proof (len_skipn (buf s) (p := pos) ltac:(lia)) as Hs.
  unfold input_slice, len in *. rewrite Nat2Z.id.
  repeat split; try assumption; lia.
Qed.

Lemma Consume_Some s re pos m :
  Consume s re pos = Some m ->
  0 <= pos /\ pos + len m <= len (buf s) /\ input_slice s pos (len m) = m.
Proof.
  unfold Consume.
  destruct (Z.leb_spec 0 pos) as [Hp|]; [|discriminate].
  destruct (Z.leb_spec pos (len (buf s))) as [Hl|]; [|discriminate].
  cbn [andb].
  destruct (re_match_prefix re _) as [k|]; [|discriminate].
  destruct (Nat.leb_spec k (List.length (skipn (Z.to_nat pos) (buf s))))
    as [Hk|]; [|discriminate].
  intros H. inv H.
  pose proof (len_skipn (buf s) (p := pos) ltac:(lia)) as Hs.
  unfold input_slice, len in *. rewrite Nat2Z.id, length_firstn.
  rewrite Nat.min_l by assumption.
  repeat split; try assumption; lia.
Qed.

Lemma yield_leaf typ data :
  yield {| Typ := typ; Data := data; Children := [] |} = data.
Proof. cbn. apply app_nil_r. Qed.

Lemma is_terminal_behaves l :
  is_terminal l -> fails_clean l /\ in_bounds l /\ spells l.
Proof.
  destruct 1 as [typ valid | typ valid].
  - split; [apply NewLiteralLexer_fails_clean|].
    split; intros fuel s pos tree n Hs Hpos H; cbn in H;
      destruct (ConsumeLiteral s (list_byte_of_string valid) pos) as [m|]
        eqn:Hm;
      try (destruct (neighborhood_of s pos); cbn in H; discriminate);
      inv H; apply ConsumeLiteral_Some in Hm;
      destruct Hm as (-> & Hp & Hle & Hsl).
    + unfold len in *. lia.
    + cbn [yield_of]. now rewrite yield_leaf.
  - split; [apply NewRegexpLexer_fails_clean|].
    split; intros fuel s pos tree n Hs Hpos H; cbn in H;
      destruct (Consume s valid pos) as [m|] eqn:Hm;
      try (destruct (neighborhood_of s pos); cbn in H; discriminate);
      inv H; apply Consume_Some in Hm; destruct Hm as (Hp & Hle & Hsl).
    + unfold len in *. lia.
    + cbn [yield_of]. now rewrite yield_leaf.
Qed.

(** X7: No combinator reads past the end of the input.  Take lexers that fail
    cleanly and whose successes, from a position inside the buffer, consume a
    length that is not negative and ends inside the buffer.  Every lexer that
    the concatenation, plus, star, optional, alternate and discard
    combinators build over them has the same property: its consumed length
    [n] satisfies [0 <= n] and [pos + n <= len(buf)]. *)
Theorem combinators_stay_in_bounds :
  forall (discards : bool) (leaf : Lexeme -> Prop) (l : Lexeme),
    (forall l', leaf l' -> fails_clean l' /\ in_bounds l') ->
    combined discards leaf l ->
    in_bounds l.
Proof.
  intros discards leaf l. apply combined_in_bounds.
Qed.

Lemma combinators_stay_in_bounds_witness :
  0 <= 3 /\ 1 + 3 <= len (buf (source_of "zxxyz")).
Proof.
  apply (@combinators_stay_in_bounds true is_terminal
           (NewConcatLexer "c" [NewLiteralLexer "x" "x";
                                NewDiscardLexer (NewLiteralLexer "x" "x");
                                NewPlusClosure (NewLiteralLexer "y" "y")])
           (fun l' H => conj (proj1 (is_terminal_behaves H))
                             (proj1 (proj2 (is_terminal_behaves H))))
           ltac:(combined_of_terminals)
           1%nat (source_of "zxxyz") 1
           (Some {| Typ := "c"; Data := [];
                    Children :=
                      [Some {| Typ := "x"; Data := ["x"%byte]; Children := [] |};
                       Some {| Typ := "y+"; Data := [];
                               Children :=
                                 [Some {| Typ := "y"; Data := ["y"%byte];
                                          Children := [] |}] |}] |})
           3).
  - reflexivity.
  - split; [discriminate|]. discriminate.
  - reflexivity.
Defined.

(** ** The tree spells the input *)

Lemma yield_node typ data children :
  yield {| Typ := typ; Data := data; Children := children |}
  = data ++ flat_map yield_of children.
Proof. reflexivity. Qed.

Lemma firstn_add {A : Type} (a b : nat) (l : list A) :
  firstn (a + b) l = firstn a l ++ firstn b (skipn a l).
Proof.
  revert l. induction a as [|a IH]; intros l; [reflexivity|].
  destruct l as [|x l]; cbn.
  - now rewrite firstn_nil.
  - now rewrite IH.
Qed.

Lemma input_slice_add s (p a b : Z) :
  0 <= p -> 0 <= a -> 0 <= b ->
  input_slice s p (a + b) = input_slice s p a ++ input_slice s (p + a) b.
Proof.
  intros Hp Ha Hb. unfold input_slice.
  rewrite Z2Nat.inj_add by assumption. rewrite firstn_add, skipn_skipn.
  rewrite (Z2Nat.inj_add p a) by assumption.
  now rewrite (Nat.add_comm (Z.to_nat a)).
Qed.

Lemma input_slice_0 s p : input_slice s p 0 = [].
Proof. reflexivity. Qed.

Lemma yield_contributed results :
  flat_map yield_of (contributed results)
  = flat_map yield_of (map fst results).
Proof.
  induction results as [|[tree l] results IH]; [reflexivity|].
  rewrite contributed_cons, flat_map_app, IH.
  destruct tree; cbn; [now rewrite app_nil_r | reflexivity].
Qed.

Lemma yield_single_or_node name children :
  yield_of (single_or_node name children) = flat_map yield_of children.
Proof.
  destruct children as [|a [|b children]]; cbn [single_or_node yield_of].
  - reflexivity.
  - cbn. now rewrite app_nil_r.
  - now rewrite yield_node.
Qed.

Lemma concat_succeeds_spells fuel s pos deps offset results total :
  addressable s ->
  Forall in_bounds deps ->
  Forall spells deps ->
  concat_succeeds fuel s pos deps offset results total ->
  0 <= pos -> 0 <= offset -> pos + offset <= len (buf s) ->
  flat_map yield_of (map fst results)
  = input_slice s (pos + offset) (total - offset).
Proof.
  intros Hs Hin Hsp H.
  induction H as [offset | dep deps offset tree l results total Hc Hrest IH];
    intros Hpos Hoff Hle.
  - rewrite Z.sub_diag. reflexivity.
  - inv Hin. inv Hsp. rename H1 into Hdin, H2 into Hrin, H3 into Hdsp,
      H4 into Hrsp.
    rewrite (int_add_inside Hs) in Hc; [|lia..].
    assert (Hin0 : 0 <= pos + offset <= len (buf s)) by lia.
    destruct (Hdin _ _ _ _ _ Hs Hin0 Hc) as [Hl Hend].
    rewrite (int_add_inside Hs) in IH, Hrest; [|lia..].
    assert (Hoff' : 0 <= offset + l) by lia.
    assert (Hle' : pos + (offset + l) <= len (buf s)) by lia.
    destruct (concat_succeeds_inside Hs Hrin Hrest Hpos Hoff' Hle')
      as (Ht & Hall & _).
    pose proof (sumZ_nonneg Hall) as Hsum.
    cbn [map fst flat_map].
    rewrite (IH Hrin Hrsp Hpos Hoff' Hle'), (Hdsp _ _ _ _ _ Hs Hin0 Hc).
    replace (total - offset) with (l + (total - (offset + l))) by lia.
    rewrite input_slice_add by lia.
    now rewrite Z.add_assoc.
Qed.

Lemma reps_spells lexer s pos matches final :
  addressable s ->
  (forall p tree n,
      0 <= p <= len (buf s) ->
      lexer s p = Ret (tree, None, n) ->
      (0 <= n /\ p + n <= len (buf s))
      /\ yield_of tree = input_slice s p n) ->
  reps lexer s pos matches final ->
  0 <= pos <= len (buf s) ->
  flat_map yield_of (map fst matches) = input_slice s pos (final - pos).
Proof.
  intros Hs Hlex H.
  induction H as [pos tree e off _ | pos tree off matches final Hc Hrest IH];
    intros Hpos.
  - rewrite Z.sub_diag. reflexivity.
  - destruct (Hlex _ _ _ Hpos Hc) as [[Hoff Hle] Hy].
    rewrite (int_add_inside Hs) in IH, Hrest; [|lia..].
    assert (Hpos' : 0 <= pos + off <= len (buf s)) by lia.
    destruct (reps_inside Hs (fun p t n Hp Hq => proj1 (Hlex p t n Hp Hq))
                Hrest Hpos') as (Hf & Hall & _).
    pose proof (sumZ_nonneg Hall) as Hsum.
    cbn [map fst flat_map]. rewrite (IH Hpos'), Hy.
    replace (final - pos) with (off + (final - (pos + off))) by lia.
    now rewrite input_slice_add by lia.
Qed.

Lemma NewConcatLexer_spells name deps :
  Forall in_bounds deps -> Forall spells deps ->
  spells (NewConcatLexer name deps).
Proof.
  intros Hin Hsp fuel s pos tree n Hs Hpos H. cbn in H.
  apply concat_loop_returns in H. destruct H as (results & Hr & ->).
  cbn [app]. rewrite yield_single_or_node, yield_contributed.
  assert (H0 : pos + 0 <= len (buf s)) by lia.
  rewrite (concat_succeeds_spells Hs Hin Hsp Hr (proj1 Hpos) (Z.le_refl 0) H0).
  now rewrite Z.add_0_r, Z.sub_0_r.
Qed.

Lemma NewStarClosure_spells lex :
  in_bounds lex -> spells lex -> spells (NewStarClosure lex).
Proof.
  intros Hin Hsp fuel s pos tree n Hs Hpos H. cbn in H.
  fold (call lex fuel) in H.
  destruct (closure_loop _ _ _ _ _) as [[resp pos']| |] eqn:Hloop;
    cbn in H; try discriminate.
  inv H. apply closure_loop_returns in Hloop.
  destruct Hloop as (matches & Hr & _ & ->).
  assert (Hlex : forall p t m,
             0 <= p <= len (buf s) ->
             call lex fuel s p = Ret (t, None, m) ->
             (0 <= m /\ p + m <= len (buf s))
             /\ yield_of t = input_slice s p m)
    by (intros p t m Hp Hq; split; eauto).
  destruct (reps_inside Hs (fun p t n Hp Hq => proj1 (Hlex p t n Hp Hq))
              Hr Hpos) as (Hf & Hall & Hend).
  pose proof (sumZ_nonneg Hall) as Hsum.
  rewrite (int_sub_inside Hs); [|lia..].
  cbn [yield_of Typ Data Children app]. rewrite yield_node. cbn [app].
  exact (reps_spells Hs Hlex Hr Hpos).
Qed.

Lemma NewPlusClosure_spells lex :
  in_bounds lex -> spells lex -> spells (NewPlusClosure lex).
Proof.
  intros Hin Hsp fuel s pos tree n Hs Hpos H. cbn in H.
  fold (call lex fuel) in H.
  child_call H. destruct err as [e|]; [discriminate|].
  destruct (closure_loop _ _ _ _ _) as [[resp pos']| |] eqn:Hloop;
    cbn in H; try discriminate.
  inv H. apply closure_loop_returns in Hloop.
  destruct Hloop as (matches & Hr & _ & ->).
  assert (Hlex : forall p t m,
             0 <= p <= len (buf s) ->
             call lex fuel s p = Ret (t, None, m) ->
             (0 <= m /\ p + m <= len (buf s))
             /\ yield_of t = input_slice s p m)
    by (intros p t m Hp Hq; split; eauto).
  assert (Hall : reps (call lex fuel) s pos ((next, off) :: matches) pos')
    by (eapply reps_more; eauto).
  destruct (reps_inside Hs (fun p t n Hp Hq => proj1 (Hlex p t n Hp Hq))
              Hall Hpos) as (Hf & Hnn & Hend).
  pose proof (sumZ_nonneg Hnn) as Hsum.
  rewrite (int_sub_inside Hs); [|lia..].
  cbn [yield_of Typ Data Children app append_child]. rewrite yield_node.
  cbn [app].
  exact (reps_spells Hs Hlex Hall Hpos).
Qed.

Lemma NewOptionClosure_spells lex :
  fails_clean lex -> spells lex -> spells (NewOptionClosure lex).
Proof.
  intros Hclean Hsp fuel s pos tree n Hs Hpos H. cbn in H.
  fold (call lex fuel s pos) in H. child_call H. inv H.
  destruct err as [e|].
  - destruct (Hclean _ _ _ _ _ _ Hcall) as [-> ->]. reflexivity.
  - eapply Hsp; eauto.
Qed.

Lemma NewAlternateLexer_spells name lhs rhs :
  spells lhs -> spells rhs -> spells (NewAlternateLexer name lhs rhs).
Proof.
  intros Hl Hr fuel s pos tree n Hs Hpos H. cbn in H.
  fold (call lhs fuel s pos) (call rhs fuel s pos) in H.
  child_call H. destruct err as [el|].
  - child_call H. destruct err as [er|]; inv H. eapply Hr; eauto.
  - inv H. eapply Hl; eauto.
Qed.

Lemma all_combined_Forall discards leaf deps :
  all_combined discards leaf deps -> Forall (combined discards leaf) deps.
Proof.
  induction 1; constructor; assumption.
Qed.

Lemma combined_spells leaf l :
  (forall l', leaf l' -> fails_clean l' /\ in_bounds l' /\ spells l') ->
  combined false leaf l ->
  spells l.
Proof.
  intros Hleaf Hl.
  assert (Hclean : forall l', combined false leaf l' -> fails_clean l').
  { intros l'. apply combined_fails_clean. intros l'' H''.
    now apply Hleaf. }
  assert (Hin : forall l', combined false leaf l' -> in_bounds l').
  { intros l'. apply combined_in_bounds. intros l'' H''.
    destruct (Hleaf l'' H'') as (? & ? & ?). auto. }
  induction Hl using combined_mut
    with (P0 := fun deps _ => Forall spells deps).
  - now apply Hleaf.
  - apply NewConcatLexer_spells; [|assumption].
    apply all_combined_Forall in a.
    eapply Forall_impl; [|exact a]. exact Hin.
  - apply NewPlusClosure_spells; auto.
  - apply NewStarClosure_spells; auto.
  - apply NewOptionClosure_spells; auto.
  - now apply NewAlternateLexer_spells.
  - discriminate.
  - constructor.
  - now constructor.
Qed.

(** X8: The tree of a successful match spells the input that the match
    consumed.  Take lexers that fail cleanly, stay inside the buffer, and
    whose trees yield the bytes they consumed.  Every lexer that the
    concatenation, plus, star, optional and alternate combinators build over
    them does the same: the raw bytes of its tree, read from left to right,
    are the [n] bytes of the input at [pos].  (The discard lexer is left out:
    it consumes bytes that no tree holds.) *)
Theorem combinators_spell_input :
  forall (leaf : Lexeme -> Prop) (l : Lexeme),
    (forall l', leaf l' -> fails_clean l' /\ in_bounds l' /\ spells l') ->
    combined false leaf l ->
    spells l.
Proof.
  intros leaf l. apply combined_spells.
Qed.

Lemma combinators_spell_input_witness :
  yield_of
    (Some {| Typ := "c"; Data := [];
             Children :=
               [Some {| Typ := "x"; Data := ["x"%byte]; Children := [] |};
                Some {| Typ := "y+"; Data := [];
                        Children :=
                          [Some {| Typ := "y"; Data := ["y"%byte];
                                   Children := [] |};
                           Some {| Typ := "y"; Data := ["y"%byte];
                                   Children := [] |}] |}] |})
  = input_slice (source_of "zxyyz") 1 3.
Proof.
  apply (@combinators_spell_input is_terminal
           (NewConcatLexer "c" [NewLiteralLexer "x" "x";
                                NewOptionClosure (NewLiteralLexer "w" "w");
                                NewPlusClosure (NewLiteralLexer "y" "y")])
           is_terminal_behaves
           ltac:(combined_of_terminals)
           2%nat (source_of "zxyyz") 1).
  - reflexivity.
  - split; discriminate.
  - reflexivity.
Defined.

(** ** Closures over a child that moves *)

Lemma closure_loop_returns_on_progress lex fuel s pos resp :
  addressable s ->
  0 <= pos <= len (buf s) ->
  (forall p, 0 <= p <= len (buf s) -> exists r, call lex fuel s p = Ret r) ->
  (forall p tree n,
      0 <= p <= len (buf s) ->
      call lex fuel s p = Ret (tree, None, n) ->
      0 < n /\ p + n <= len (buf s)) ->
  (Z.to_nat (len (buf s) - pos) < fuel)%nat ->
  exists resp' pos', closure_loop fuel (call lex fuel) s pos resp
                     = Ret (resp', pos').
Proof.
  intros Hs Hpos Hret Hmove Hfuel.
  destruct fuel as [|k]; [lia|].
  apply (@closure_loop_terminates (call lex (S k)) s Hs
           (fun p t off Hp Hc => Hmove p t off Hp Hc) Hret k pos resp Hpos).
  lia.
Qed.

(** X9: A star or a plus returns when its child moves.  If, inside the buffer,
    the child always returns and each of its successes consumes at least one
    byte and ends inside the buffer, then the star succeeds and the plus
    returns, within one loop iteration per byte left and one more. *)
Theorem closures_return_on_progress :
  forall (lex : Lexeme) (fuel : nat) (s : Source) (pos : Z),
    addressable s ->
    0 <= pos <= len (buf s) ->
    (forall p, 0 <= p <= len (buf s) -> exists r, call lex fuel s p = Ret r) ->
    (forall p tree n,
        0 <= p <= len (buf s) ->
        call lex fuel s p = Ret (tree, None, n) ->
        0 < n /\ p + n <= len (buf s)) ->
    (Z.to_nat (len (buf s) - pos) < fuel)%nat ->
    (exists star n,
        call (NewStarClosure lex) fuel s pos = Ret (Some star, None, n))
    /\ (exists r, call (NewPlusClosure lex) fuel s pos = Ret r).
Proof.
  intros lex fuel s pos Hs Hpos Hret Hmove Hfuel. split.
  - cbn [call NewStarClosure Lexer]. fold (call lex fuel).
    destruct (@closure_loop_returns_on_progress lex fuel s pos
                {| Typ := String.append (Name lex) "*"; Data := [];
                   Children := [] |} Hs Hpos Hret Hmove Hfuel)
      as (resp' & pos' & ->).
    cbn. eauto.
  - cbn [call NewPlusClosure Lexer]. fold (call lex fuel).
    destruct (Hret pos Hpos) as [[[next err] off] Hc]. rewrite Hc. cbn [bind].
    destruct err as [e|]; [eauto|].
    destruct (Hmove _ _ _ Hpos Hc) as [Hoff Hle].
    rewrite (int_add_inside Hs); [|lia..].
    assert (Hpos' : 0 <= pos + off <= len (buf s)) by lia.
    assert (Hfuel' : (Z.to_nat (len (buf s) - (pos + off)) < fuel)%nat) by lia.
    destruct (@closure_loop_returns_on_progress lex fuel s (pos + off)
                (append_child
                   {| Typ := String.append (Name lex) "+"; Data := [];
                      Children := [] |} next) Hs Hpos' Hret Hmove Hfuel')
      as (resp' & pos' & ->).
    cbn. eauto.
Qed.

(** A literal that is not empty is such a child. *)
Lemma NewLiteralLexer_returns typ valid fuel s p :
  len (buf s) + 10 < Int.half ->
  0 <= p <= len (buf s) ->
  exists r, call (NewLiteralLexer typ valid) fuel s p = Ret r.
Proof.
  intros Hlen Hp. cbn.
  destruct (ConsumeLiteral s (list_byte_of_string valid) p); [eauto|].
  rewrite (neighborhood_of_inside _ Hlen Hp). cbn. eauto.
Qed.

Lemma NewLiteralLexer_moves typ valid fuel s p tree n :
  valid <> EmptyString ->
  call (NewLiteralLexer typ valid) fuel s p = Ret (tree, None, n) ->
  0 < n /\ p + n <= len (buf s).
Proof.
  intros Hne H. cbn in H.
  destruct (ConsumeLiteral s (list_byte_of_string valid) p) as [m|] eqn:Hm;
    [|destruct (neighborhood_of s p); cbn in H; discriminate].
  inv H. apply ConsumeLiteral_Some in Hm. destruct Hm as (-> & Hp & Hle & _).
  split; [|assumption].
  destruct valid; [congruence|]. unfold len. cbn. lia.
Qed.

Lemma closures_return_on_progress_witness :
  (exists star n,
      call (NewStarClosure (NewLiteralLexer "x" "x")) 5%nat (source_of "xxxy") 0
      = Ret (Some star, None, n))
  /\ (exists r,
         call (NewPlusClosure (NewLiteralLexer "x" "x")) 5%nat
              (source_of "xxxy") 0 = Ret r).
Proof.
  apply (@closures_return_on_progress (NewLiteralLexer "x" "x") 5%nat
           (source_of "xxxy") 0).
  - reflexivity.
  - split; discriminate.
  - intros p Hp. apply NewLiteralLexer_returns; [reflexivity | exact Hp].
  - intros p tree n _ H.
    apply (@NewLiteralLexer_moves "x" "x" 5%nat (source_of "xxxy") p tree n);
      [discriminate | exact H].
  - cbn. lia.
Defined.

(** ** The dump of a lexeme *)

Lemma count_newlines_append (a b : string) :
  count_newlines (String.append a b)
  = (count_newlines a + count_newlines b)%nat.
Proof.
  induction a as [|c a IH]; cbn; [reflexivity|]. rewrite IH. lia.
Qed.

Lemma count_newlines_Sprintln3 indent name resolved :
  count_newlines (Sprintln3 indent name resolved)
  = (count_newlines indent + count_newlines name + 1)%nat.
Proof.
  unfold Sprintln3. rewrite !count_newlines_append.
  destruct resolved; cbn; lia.
Qed.

Lemma dumpTree_newlines :
  forall (l : Lexeme) (indent : string),
    names_on_one_line l ->
    count_newlines indent = 0%nat ->
    count_newlines (dumpTree l indent) = nodes l.
Proof.
  fix IH 1. intros [name deps resolved lexer] indent [Hname Hdeps] Hindent.
  cbn [dumpTree nodes].
  assert (Hfold : forall acc,
             count_newlines
               (fold_left
                  (fun s child =>
                     String.append s (dumpTree child (String.append indent " ")))
                  deps acc)
             = (count_newlines acc + list_sum (map nodes deps))%nat).
  { clear Hname. induction deps as [|dep deps IHdeps]; intros acc.
    - cbn. lia.
    - destruct Hdeps as [Hdep Hdeps]. cbn [fold_left map list_sum fold_right].
      rewrite (IHdeps Hdeps), count_newlines_append.
      rewrite (IH dep (String.append indent " ") Hdep).
      + fold (list_sum (map nodes deps)). lia.
      + rewrite count_newlines_append, Hindent. reflexivity. }
  rewrite Hfold, count_newlines_Sprintln3, Hname, Hindent. reflexivity.
Qed.

(** X10: The dump of a lexeme has one line for each lexeme in its tree of
    dependencies, when no name holds a newline: [String()] returns as many
    newlines as there are lexemes. *)
Theorem Lexeme_String_lines :
  forall l : Lexeme,
    names_on_one_line l ->
    count_newlines (Lexeme_String l) = nodes l.
Proof.
  intros l Hl. now apply dumpTree_newlines.
Qed.

Lemma Lexeme_String_lines_witness :
  count_newlines
    (Lexeme_String
       (NewConcatLexer "r" [NewPlusClosure (NewLiteralLexer "x" "x");
                            NewAlternateLexer "a/b" (NewLiteralLexer "a" "a")
                                              (NewRuleLexer "b")]))
  = 6%nat.
Proof.
  apply (@Lexeme_String_lines
           (NewConcatLexer "r" [NewPlusClosure (NewLiteralLexer "x" "x");
                                NewAlternateLexer "a/b" (NewLiteralLexer "a" "a")
                                                  (NewRuleLexer "b")])).
  cbn. repeat split.
Defined.

(** ** Lexers do not look behind *)

Lemma len_app {A : Type} (l1 l2 : list A) : len (l1 ++ l2) = len l1 + len l2.
Proof. unfold len. rewrite length_app. lia. Qed.

Lemma len_nonneg {A : Type} (l : list A) : 0 <= len l.
Proof. unfold len. lia. Qed.

Lemma skipn_shift (before b : list byte) (pos : Z) :
  0 <= pos ->
  skipn (Z.to_nat (len before + pos)) (before ++ b) = skipn (Z.to_nat pos) b.
Proof.
  intros Hpos. unfold len. rewrite skipn_app.
  rewrite skipn_all2 by lia. cbn [app]. f_equal. lia.
Qed.

Lemma inside_shift (before b : list byte) (pos : Z) :
  0 <= pos <= len b ->
  (0 <=? len before + pos) && (len before + pos <=? len (before ++ b))
  = (0 <=? pos) && (pos <=? len b).
Proof.
  intros Hpos. pose proof (len_nonneg before). rewrite len_app.
  destruct (Z.leb_spec 0 (len before + pos)),
    (Z.leb_spec (len before + pos) (len before + len b)),
    (Z.leb_spec 0 pos), (Z.leb_spec pos (len b)); cbn; lia || reflexivity.
Qed.

Lemma neighborhood_of_shift (before b : list byte) (pos : Z) :
  len (before ++ b) + 10 < Int.half ->
  0 <= pos <= len b ->
  neighborhood_of {| buf := before ++ b |} (len before + pos)
  = neighborhood_of {| buf := b |} pos.
Proof.
  intros Hlen Hpos. pose proof (len_nonneg before). rewrite len_app in Hlen.
  rewrite !neighborhood_of_inside; cbn [buf]; rewrite ?len_app; try lia.
  now rewrite skipn_shift by lia.
Qed.

Lemma NewLiteralLexer_local typ valid : local (NewLiteralLexer typ valid).
Proof.
  intros fuel before b pos Hlen Hpos. cbn. unfold ConsumeLiteral. cbn [buf].
  rewrite inside_shift, skipn_shift, neighborhood_of_shift by (assumption || lia).
  reflexivity.
Qed.

Lemma NewRegexpLexer_local typ valid : local (NewRegexpLexer typ valid).
Proof.
  intros fuel before b pos Hlen Hpos. cbn. unfold Consume. cbn [buf].
  rewrite inside_shift, skipn_shift, neighborhood_of_shift by (assumption || lia).
  reflexivity.
Qed.

Lemma margin_addressable (before b : list byte) :
  len (before ++ b) + 10 < Int.half -> addressable {| buf := b |}.
Proof.
  unfold addressable. cbn [buf]. rewrite len_app.
  pose proof (len_nonneg before). lia.
Qed.

Lemma int_add_shift (before b : list byte) (p n : Z) :
  len (before ++ b) + 10 < Int.half ->
  0 <= p -> 0 <= n -> p + n <= len b ->
  int_add (len before + p) n = len before + (p + n) /\ int_add p n = p + n.
Proof.
  rewrite len_app. intros Hlen Hp Hn Hle. pose proof (len_nonneg before).
  assert (0 < Int.half) by reflexivity.
  unfold int_add, Int.add.
  rewrite !wrap_in_range by (unfold Int.in_range; lia). lia.
Qed.

Lemma closure_loop_local lex fuel (before b : list byte) :
  len (before ++ b) + 10 < Int.half ->
  in_bounds lex -> local lex ->
  forall n p resp,
    0 <= p <= len b ->
    closure_loop n (call lex fuel) {| buf := before ++ b |} (len before + p) resp
    = match closure_loop n (call lex fuel) {| buf := b |} p resp with
      | Ret (r, p') => Ret (r, len before + p')
      | Panic => Panic
      | OutOfFuel => OutOfFuel
      end.
Proof.
  intros Hlen Hin Hloc. induction n as [|n IH]; intros p resp Hp;
    [reflexivity|].
  cbn [closure_loop]. rewrite (Hloc fuel before b p Hlen Hp).
  destruct (call lex fuel {| buf := b |} p) as [[[next [e|]] off]| |] eqn:Hc;
    cbn [bind]; try reflexivity.
  destruct (Hin _ _ _ _ _ (margin_addressable _ _ Hlen) Hp Hc) as [Hoff Hle].
  cbn [buf] in Hle.
  destruct (@int_add_shift before b p off Hlen) as [-> ->]; try lia.
  apply IH. lia.
Qed.

Lemma concat_loop_local name fuel (before b : list byte) pos deps :
  len (before ++ b) + 10 < Int.half ->
  0 <= pos ->
  Forall in_bounds deps -> Forall local deps ->
  forall children offset,
    0 <= offset -> pos + offset <= len b ->
    concat_loop name deps fuel {| buf := before ++ b |} (len before + pos)
                children offset
    = concat_loop name deps fuel {| buf := b |} pos children offset.
Proof.
  intros Hlen Hpos Hin Hloc. induction deps as [|dep deps IH];
    intros children offset Hoff Hle; [reflexivity|].
  inv Hin. inv Hloc. rename H1 into Hdin, H2 into Hrin, H3 into Hdloc,
    H4 into Hrloc.
  cbn [concat_loop].
  destruct (@int_add_shift before b pos offset Hlen) as [-> ->]; try lia.
  assert (Hp : 0 <= pos + offset <= len b) by lia.
  rewrite (Hdloc fuel before b (pos + offset) Hlen Hp).
  destruct (call dep fuel {| buf := b |} (pos + offset))
    as [[[tree [e|]] l]| |] eqn:Hc; cbn [bind]; try reflexivity.
  destruct (Hdin _ _ _ _ _ (margin_addressable _ _ Hlen) Hp Hc) as [Hl Hend].
  cbn [buf] in Hend.
  destruct (@int_add_shift before b offset l Hlen) as [_ ->]; try lia.
  apply (IH Hrin Hrloc); lia.
Qed.

Lemma NewConcatLexer_local name deps :
  Forall in_bounds deps -> Forall local deps ->
  local (NewConcatLexer name deps).
Proof.
  intros Hin Hloc fuel before b pos Hlen Hpos. cbn.
  apply concat_loop_local; (assumption || lia).
Qed.

Lemma NewStarClosure_local lex :
  in_bounds lex -> local lex -> local (NewStarClosure lex).
Proof.
  intros Hin Hloc fuel before b pos Hlen Hpos.
  cbn [call NewStarClosure Lexer]. fold (call lex fuel).
  rewrite (@closure_loop_local lex fuel before b Hlen Hin Hloc) by assumption.
  destruct (closure_loop _ _ _ _ _) as [[r p']| |]; cbn [bind];
    try reflexivity.
  unfold int_sub, Int.sub. do 3 f_equal. lia.
Qed.

Lemma NewPlusClosure_local lex :
  in_bounds lex -> local lex -> local (NewPlusClosure lex).
Proof.
  intros Hin Hloc fuel before b pos Hlen Hpos.
  cbn [call NewPlusClosure Lexer]. fold (call lex fuel).
  rewrite (Hloc fuel before b pos Hlen Hpos).
  destruct (call lex fuel {| buf := b |} pos) as [[[next [e|]] off]| |] eqn:Hc;
    cbn [bind]; try reflexivity.
  destruct (Hin _ _ _ _ _ (margin_addressable _ _ Hlen) Hpos Hc) as [Hoff Hle].
  cbn [buf] in Hle.
  destruct (@int_add_shift before b pos off Hlen) as [-> ->]; try lia.
  rewrite (@closure_loop_local lex fuel before b Hlen Hin Hloc) by lia.
  destruct (closure_loop _ _ _ _ _) as [[r p']| |]; cbn [bind];
    try reflexivity.
  unfold int_sub, Int.sub. do 3 f_equal. lia.
Qed.

Lemma NewOptionClosure_local lex : local lex -> local (NewOptionClosure lex).
Proof.
  intros Hloc fuel before b pos Hlen Hpos. cbn.
  fold (call lex fuel {| buf := before ++ b |} (len before + pos)).
  fold (call lex fuel {| buf := b |} pos).
  now rewrite (Hloc fuel before b pos Hlen Hpos).
Qed.

Lemma NewAlternateLexer_local name lhs rhs :
  local lhs -> local rhs -> local (NewAlternateLexer name lhs rhs).
Proof.
  intros Hl Hr fuel before b pos Hlen Hpos. cbn.
  fold (call lhs fuel {| buf := before ++ b |} (len before + pos)).
  fold (call rhs fuel {| buf := before ++ b |} (len before + pos)).
  fold (call lhs fuel {| buf := b |} pos) (call rhs fuel {| buf := b |} pos).
  now rewrite (Hl fuel before b pos Hlen Hpos), (Hr fuel before b pos Hlen Hpos).
Qed.

Lemma NewDiscardLexer_local lex : local lex -> local (NewDiscardLexer lex).
Proof.
  intros Hloc fuel before b pos Hlen Hpos.
  rewrite !NewDiscardLexer_call.
  now rewrite (Hloc fuel before b pos Hlen Hpos).
Qed.

Lemma is_terminal_local l : is_terminal l -> local l.
Proof.
  destruct 1; [apply NewLiteralLexer_local | apply NewRegexpLexer_local].
Qed.

Lemma combined_local discards leaf l :
  (forall l', leaf l' -> fails_clean l' /\ in_bounds l' /\ local l') ->
  combined discards leaf l ->
  local l.
Proof.
  intros Hleaf Hl.
  assert (Hin : forall l', combined discards leaf l' -> in_bounds l').
  { intros l'. apply combined_in_bounds. intros l'' H''.
    destruct (Hleaf l'' H'') as (? & ? & ?). auto. }
  induction Hl using combined_mut
    with (P0 := fun deps _ => Forall local deps).
  - now apply Hleaf.
  - apply NewConcatLexer_local; [|assumption].
    apply all_combined_Forall in a.
    eapply Forall_impl; [|exact a]. exact Hin.
  - apply NewPlusClosure_local; auto.
  - apply NewStarClosure_local; auto.
  - now apply NewOptionClosure_local.
  - now apply NewAlternateLexer_local.
  - now apply NewDiscardLexer_local.
  - constructor.
  - now constructor.
Qed.

(** X11: No combinator looks behind its position.  Take lexers that fail
    cleanly, stay inside the buffer and are local: their outcome at [pos] is
    their outcome at [pos] less [k] once the first [k] bytes of the input
    are dropped.  Every lexer that the combinators build over them is local
    as well: the same tree, error and consumed length, or the same panic or
    endless loop, with and without the bytes before [pos]. *)
Theorem combinators_are_local :
  forall (discards : bool) (leaf : Lexeme -> Prop) (l : Lexeme),
    (forall l', leaf l' -> fails_clean l' /\ in_bounds l' /\ local l') ->
    combined discards leaf l ->
    local l.
Proof.
  intros discards leaf l. apply combined_local.
Qed.

Lemma combinators_are_local_witness :
  call (NewConcatLexer "c" [NewPlusClosure (NewLiteralLexer "x" "x");
                            NewDiscardLexer (NewLiteralLexer "y" "y")])
       3%nat {| buf := list_byte_of_string "ab" ++ list_byte_of_string "xxyz" |}
       (len (list_byte_of_string "ab") + 0)
  = call (NewConcatLexer "c" [NewPlusClosure (NewLiteralLexer "x" "x");
                              NewDiscardLexer (NewLiteralLexer "y" "y")])
         3%nat {| buf := list_byte_of_string "xxyz" |} 0.
Proof.
  apply (@combinators_are_local true is_terminal
           (NewConcatLexer "c" [NewPlusClosure (NewLiteralLexer "x" "x");
                                NewDiscardLexer (NewLiteralLexer "y" "y")])
           (fun l' H =>
              conj (proj1 (is_terminal_behaves H))
                   (conj (proj1 (proj2 (is_terminal_behaves H)))
                         (is_terminal_local H)))
           ltac:(combined_of_terminals)).
  - reflexivity.
  - split; discriminate.
Defined.

(** ** Repetition is greedy *)

Lemma wrap_range (z : Z) : Int.in_range (Int.wrap z).
Proof. destruct (wrap_spec z) as (q & _ & H). exact H. Qed.

(** A repetition stops where its child fails. *)
Lemma reps_final_fails lexer s pos matches final :
  reps lexer s pos matches final ->
  exists tree e off, lexer s final = Ret (tree, Some e, off).
Proof.
  induction 1 as [pos tree e off Hc | pos tree off matches final _ _ IH];
    eauto.
Qed.

Lemma reps_final_range lexer s pos matches final :
  reps lexer s pos matches final ->
  Int.in_range pos -> Int.in_range final.
Proof.
  induction 1 as [| pos tree off matches final _ _ IH]; intros Hpos;
    [assumption|].
  apply IH. apply wrap_range.
Qed.

Lemma int_add_int_sub (pos final : Z) :
  Int.in_range final -> int_add pos (int_sub final pos) = final.
Proof.
  intros H. unfold int_add, int_sub, Int.add, Int.sub.
  rewrite wrap_add_wrap_r. replace (pos + (final - pos)) with final by lia.
  now apply wrap_in_range.
Qed.

Lemma NewStarClosure_greedy lex fuel s pos tree n :
  Int.in_range pos ->
  call (NewStarClosure lex) fuel s pos = Ret (tree, None, n) ->
  exists tree' e n', call lex fuel s (int_add pos n) = Ret (tree', Some e, n').
Proof.
  intros Hpos H. cbn in H. fold (call lex fuel) in H.
  destruct (closure_loop _ _ _ _ _) as [[resp pos']| |] eqn:Hloop;
    cbn in H; try discriminate.
  inv H. apply closure_loop_returns in Hloop.
  destruct Hloop as (matches & Hr & _ & _).
  rewrite (int_add_int_sub pos (reps_final_range Hr Hpos)).
  apply (reps_final_fails Hr).
Qed.

Lemma NewPlusClosure_greedy lex fuel s pos tree n :
  Int.in_range pos ->
  call (NewPlusClosure lex) fuel s pos = Ret (tree, None, n) ->
  exists tree' e n', call lex fuel s (int_add pos n) = Ret (tree', Some e, n').
Proof.
  intros Hpos H. cbn in H. fold (call lex fuel) in H.
  child_call H. destruct err as [e|]; [discriminate|].
  destruct (closure_loop _ _ _ _ _) as [[resp pos']| |] eqn:Hloop;
    cbn in H; try discriminate.
  inv H. apply closure_loop_returns in Hloop.
  destruct Hloop as (matches & Hr & _ & _).
  rewrite (int_add_int_sub pos (reps_final_range Hr (wrap_range _))).
  apply (reps_final_fails Hr).
Qed.

(** X12: The star and the plus lexer are greedy: where a successful repetition
    stops, at [pos] plus the length it consumed, the child fails.  Nothing
    that the child could still match is left to what follows. *)
Theorem closures_are_greedy :
  forall (lex : Lexeme) (fuel : nat) (s : Source) (pos : Z),
    Int.in_range pos ->
    (forall tree n,
        call (NewStarClosure lex) fuel s pos = Ret (tree, None, n) ->
        exists tree' e n',
          call lex fuel s (int_add pos n) = Ret (tree', Some e, n'))
    /\ (forall tree n,
           call (NewPlusClosure lex) fuel s pos = Ret (tree, None, n) ->
           exists tree' e n',
             call lex fuel s (int_add pos n) = Ret (tree', Some e, n')).
Proof.
  intros lex fuel s pos Hpos. split; intros tree n H.
  - eapply NewStarClosure_greedy; eauto.
  - eapply NewPlusClosure_greedy; eauto.
Qed.

Lemma closures_are_greedy_witness :
  exists tree' e n',
    call (NewLiteralLexer "x" "x") 4%nat (source_of "xxxy") (int_add 0 3)
    = Ret (tree', Some e, n').
Proof.
  apply (proj1 (@closures_are_greedy (NewLiteralLexer "x" "x") 4%nat
                  (source_of "xxxy") 0
                  ltac:(split; [discriminate | reflexivity]))
           (Some {| Typ := "x*"; Data := [];
                    Children :=
                      [Some {| Typ := "x"; Data := ["x"%byte]; Children := [] |};
                       Some {| Typ := "x"; Data := ["x"%byte]; Children := [] |};
                       Some {| Typ := "x"; Data := ["x"%byte]; Children := [] |}]
                 |}) 3).
  reflexivity.
Defined.

(** X13: A star followed by its own child never succeeds: the star has left
    nothing for the child, and the concatenation does not go back into the
    star.  The same holds for a plus. *)
Theorem repetition_then_child_never_succeeds :
  forall (name : string) (lex : Lexeme) (fuel : nat) (s : Source) (pos : Z)
         (tree : option ParseTree) (n : Z),
    Int.in_range pos ->
    call (NewConcatLexer name [NewStarClosure lex; lex]) fuel s pos
    <> Ret (tree, None, n)
    /\ call (NewConcatLexer name [NewPlusClosure lex; lex]) fuel s pos
       <> Ret (tree, None, n).
Proof.
  intros name lex fuel s pos tree n Hpos.
  assert (H0 : int_add pos 0 = pos)
    by (unfold int_add, Int.add; rewrite Z.add_0_r; now apply wrap_in_range).
  assert (Hl : forall l, int_add pos (int_add 0 l) = int_add pos l).
  { intros l. unfold int_add, Int.add. rewrite wrap_add_wrap_r. f_equal. }
  split; intros H.
  - change (concat_loop name [NewStarClosure lex; lex] fuel s pos [] 0
            = Ret (tree, None, n)) in H.
    apply concat_loop_returns in H. destruct H as (results & Hs & _).
    inversion Hs as [|dep deps offset t1 l1 results1 total Hc1 Hs1]; subst.
    inversion Hs1 as [|dep deps offset t2 l2 results2 total Hc2 Hs2]; subst.
    rewrite H0 in Hc1. rewrite Hl in Hc2.
    destruct (@NewStarClosure_greedy lex fuel s pos t1 l1 Hpos Hc1)
      as (t' & e & n' & Hfail).
    congruence.
  - change (concat_loop name [NewPlusClosure lex; lex] fuel s pos [] 0
            = Ret (tree, None, n)) in H.
    apply concat_loop_returns in H. destruct H as (results & Hs & _).
    inversion Hs as [|dep deps offset t1 l1 results1 total Hc1 Hs1]; subst.
    inversion Hs1 as [|dep deps offset t2 l2 results2 total Hc2 Hs2]; subst.
    rewrite H0 in Hc1. rewrite Hl in Hc2.
    destruct (@NewPlusClosure_greedy lex fuel s pos t1 l1 Hpos Hc1)
      as (t' & e & n' & Hfail).
    congruence.
Qed.

Lemma repetition_then_child_never_succeeds_witness :
  call (NewConcatLexer "r" [NewStarClosure (NewLiteralLexer "x" "x");
                            NewLiteralLexer "x" "x"])
       4%nat (source_of "xxx") 0
  <> Ret (None, None, 3)
  /\ call (NewConcatLexer "r" [NewPlusClosure (NewLiteralLexer "x" "x");
                               NewLiteralLexer "x" "x"])
          4%nat (source_of "xxx") 0
     <> Ret (None, None, 3).
Proof.
  apply (@repetition_then_child_never_succeeds "r" (NewLiteralLexer "x" "x")
           4%nat (source_of "xxx") 0 None 3).
  split; [discriminate | reflexivity].
Defined.

(** ** Dead alternatives *)

Lemma NewAlternateLexer_unfailing_left name lhs rhs fuel s pos :
  never_fails lhs ->
  call (NewAlternateLexer name lhs rhs) fuel s pos = call lhs fuel s pos.
Proof.
  intros Hnf. cbn. fold (call lhs fuel s pos).
  destruct (call lhs fuel s pos) as [[[tree [e|]] n]| |] eqn:Hc;
    try reflexivity.
  now apply Hnf in Hc.
Qed.

(** X14: Ordered choice never reaches an alternative that stands after an
    optional, a discard or a star: these never fail, so the alternate lexer
    is its left child, whatever the right child is. *)
Theorem alternative_after_unfailing_is_dead :
  forall (name : string) (lex rhs : Lexeme) (fuel : nat) (s : Source) (pos : Z),
    call (NewAlternateLexer name (NewOptionClosure lex) rhs) fuel s pos
    = call (NewOptionClosure lex) fuel s pos
    /\ call (NewAlternateLexer name (NewDiscardLexer lex) rhs) fuel s pos
       = call (NewDiscardLexer lex) fuel s pos
    /\ call (NewAlternateLexer name (NewStarClosure lex) rhs) fuel s pos
       = call (NewStarClosure lex) fuel s pos.
Proof.
  intros name lex rhs fuel s pos. repeat split.
  - apply NewAlternateLexer_unfailing_left, NewOptionClosure_never_fails.
  - apply NewAlternateLexer_unfailing_left, NewDiscardLexer_never_fails.
  - apply NewAlternateLexer_unfailing_left, NewStarClosure_never_fails.
Qed.

(** ** No panic inside the buffer *)

Lemma margin_addressable' s : len (buf s) + 10 < Int.half -> addressable s.
Proof. unfold addressable. lia. Qed.

Lemma closure_loop_safe lex fuel s :
  len (buf s) + 10 < Int.half ->
  in_bounds lex -> safe lex ->
  forall n pos resp,
    0 <= pos <= len (buf s) ->
    closure_loop n (call lex fuel) s pos resp <> Panic.
Proof.
  intros Hlen Hin Hsafe. induction n as [|n IH]; intros pos resp Hpos;
    [discriminate|].
  cbn [closure_loop].
  destruct (call lex fuel s pos) as [[[next [e|]] off]| |] eqn:Hc;
    cbn [bind]; try discriminate.
  - destruct (Hin _ _ _ _ _ (margin_addressable' _ Hlen) Hpos Hc)
      as [Hoff Hle].
    rewrite (int_add_inside (margin_addressable' _ Hlen)); [|lia..].
    apply IH. lia.
  - intros _. exact (Hsafe fuel s pos Hlen Hpos Hc).
Qed.

Lemma concat_loop_safe name fuel s pos deps :
  len (buf s) + 10 < Int.half ->
  0 <= pos ->
  Forall in_bounds deps -> Forall safe deps ->
  forall children offset,
    0 <= offset -> pos + offset <= len (buf s) ->
    concat_loop name deps fuel s pos children offset <> Panic.
Proof.
  intros Hlen Hpos Hin Hsafe. induction deps as [|dep deps IH];
    intros children offset Hoff Hle; cbn [concat_loop].
  - destruct (len children =? 1); discriminate.
  - inv Hin. inv Hsafe. rename H1 into Hdin, H2 into Hrin, H3 into Hds,
      H4 into Hrs.
    rewrite (int_add_inside (margin_addressable' _ Hlen)); [|lia..].
    assert (Hp : 0 <= pos + offset <= len (buf s)) by lia.
    destruct (call dep fuel s (pos + offset)) as [[[tree [e|]] l]| |] eqn:Hc;
      cbn [bind]; try discriminate.
    + destruct (Hdin _ _ _ _ _ (margin_addressable' _ Hlen) Hp Hc)
        as [Hl Hend].
      rewrite (int_add_inside (margin_addressable' _ Hlen)); [|lia..].
      apply (IH Hrin Hrs); lia.
    + intros _. exact (Hds fuel s (pos + offset) Hlen Hp Hc).
Qed.

Lemma NewConcatLexer_safe name deps :
  Forall in_bounds deps -> Forall safe deps -> safe (NewConcatLexer name deps).
Proof.
  intros Hin Hsafe fuel s pos Hlen Hpos.
  change (concat_loop name deps fuel s pos [] 0 <> Panic).
  apply concat_loop_safe; (assumption || lia).
Qed.

Lemma NewStarClosure_safe lex :
  in_bounds lex -> safe lex -> safe (NewStarClosure lex).
Proof.
  intros Hin Hsafe fuel s pos Hlen Hpos.
  cbn [call NewStarClosure Lexer]. fold (call lex fuel).
  pose proof (@closure_loop_safe lex fuel s Hlen Hin Hsafe fuel pos
                {| Typ := String.append (Name lex) "*"; Data := [];
                   Children := [] |} Hpos) as Hloop.
  destruct (closure_loop _ _ _ _ _) as [[r p']| |]; cbn [bind];
    (discriminate || congruence).
Qed.

Lemma NewPlusClosure_safe lex :
  in_bounds lex -> safe lex -> safe (NewPlusClosure lex).
Proof.
  intros Hin Hsafe fuel s pos Hlen Hpos.
  cbn [call NewPlusClosure Lexer]. fold (call lex fuel).
  destruct (call lex fuel s pos) as [[[next [e|]] off]| |] eqn:Hc;
    cbn [bind]; try discriminate.
  - destruct (Hin _ _ _ _ _ (margin_addressable' _ Hlen) Hpos Hc)
      as [Hoff Hle].
    rewrite (int_add_inside (margin_addressable' _ Hlen)); [|lia..].
    assert (Hp : 0 <= pos + off <= len (buf s)) by lia.
    pose proof (@closure_loop_safe lex fuel s Hlen Hin Hsafe fuel (pos + off)
                  (append_child
                     {| Typ := String.append (Name lex) "+"; Data := [];
                        Children := [] |} next) Hp) as Hloop.
    destruct (closure_loop _ _ _ _ _) as [[r p']| |]; cbn [bind];
      (discriminate || congruence).
  - intros _. exact (Hsafe fuel s pos Hlen Hpos Hc).
Qed.

Lemma NewOptionClosure_safe lex : safe lex -> safe (NewOptionClosure lex).
Proof.
  intros Hsafe fuel s pos Hlen Hpos. cbn. fold (call lex fuel s pos).
  pose proof (Hsafe fuel s pos Hlen Hpos) as Hc.
  destruct (call lex fuel s pos) as [[[t e] n]| |]; cbn;
    (discriminate || congruence).
Qed.

Lemma NewAlternateLexer_safe name lhs rhs :
  safe lhs -> safe rhs -> safe (NewAlternateLexer name lhs rhs).
Proof.
  intros Hl Hr fuel s pos Hlen Hpos. cbn.
  fold (call lhs fuel s pos) (call rhs fuel s pos).
  pose proof (Hl fuel s pos Hlen Hpos) as Hcl.
  pose proof (Hr fuel s pos Hlen Hpos) as Hcr.
  destruct (call lhs fuel s pos) as [[[tl [el|]] nl]| |]; cbn;
    try (discriminate || congruence).
  destruct (call rhs fuel s pos) as [[[tr [er|]] nr]| |]; cbn;
    (discriminate || congruence).
Qed.

Lemma NewDiscardLexer_safe lex : safe lex -> safe (NewDiscardLexer lex).
Proof.
  intros Hsafe fuel s pos Hlen Hpos. rewrite NewDiscardLexer_call.
  pose proof (Hsafe fuel s pos Hlen Hpos) as Hc.
  destruct (call lex fuel s pos) as [[[t e] n]| |];
    (discriminate || congruence).
Qed.

Lemma is_terminal_safe l : is_terminal l -> safe l.
Proof.
  destruct 1 as [typ valid | typ valid]; intros fuel s pos Hlen Hpos; cbn.
  - destruct (ConsumeLiteral s (list_byte_of_string valid) pos);
      [discriminate|].
    rewrite (neighborhood_of_inside _ Hlen Hpos). discriminate.
  - destruct (Consume s valid pos); [discriminate|].
    rewrite (neighborhood_of_inside _ Hlen Hpos). discriminate.
Qed.

Lemma combined_safe discards leaf l :
  (forall l', leaf l' -> fails_clean l' /\ in_bounds l' /\ safe l') ->
  combined discards leaf l ->
  safe l.
Proof.
  intros Hleaf Hl.
  assert (Hin : forall l', combined discards leaf l' -> in_bounds l').
  { intros l'. apply combined_in_bounds. intros l'' H''.
    destruct (Hleaf l'' H'') as (? & ? & ?). auto. }
  induction Hl using combined_mut
    with (P0 := fun deps _ => Forall safe deps).
  - now apply Hleaf.
  - apply NewConcatLexer_safe; [|assumption].
    apply all_combined_Forall in a.
    eapply Forall_impl; [|exact a]. exact Hin.
  - apply NewPlusClosure_safe; auto.
  - apply NewStarClosure_safe; auto.
  - now apply NewOptionClosure_safe.
  - now apply NewAlternateLexer_safe.
  - now apply NewDiscardLexer_safe.
  - constructor.
  - now constructor.
Qed.

(** X15: The literal and the regexp lexer return at every position inside the
    buffer: there the slice of the error's neighbourhood is in range, so that
    a mismatch is a returned failure and not a panic. *)
Theorem terminals_return_inside_buffer :
  forall (typ valid : string) (re : Regexp) (fuel : nat) (s : Source) (pos : Z),
    len (buf s) + 10 < Int.half ->
    0 <= pos <= len (buf s) ->
    (exists r, call (NewLiteralLexer typ valid) fuel s pos = Ret r)
    /\ (exists r, call (NewRegexpLexer typ re) fuel s pos = Ret r).
Proof.
  intros typ valid re fuel s pos Hlen Hpos. split; cbn.
  - destruct (ConsumeLiteral s (list_byte_of_string valid) pos); [eauto|].
    rewrite (neighborhood_of_inside _ Hlen Hpos). cbn. eauto.
  - destruct (Consume s re pos); [eauto|].
    rewrite (neighborhood_of_inside _ Hlen Hpos). cbn. eauto.
Qed.

Lemma terminals_return_inside_buffer_witness :
  (exists r, call (NewLiteralLexer "x" "x") 0%nat (source_of "abc") 3 = Ret r)
  /\ (exists r,
         call (NewRegexpLexer "d" {| re_String := "\d";
                                     re_match_prefix := fun _ => None |})
              0%nat (source_of "abc") 3 = Ret r).
Proof.
  apply (@terminals_return_inside_buffer "x" "x"
           {| re_String := "\d"; re_match_prefix := fun _ => None |}
           0%nat (source_of "abc") 3).
  - reflexivity.
  - split; discriminate.
Defined.

(** X16: No combinator panics inside the buffer.  Take lexers that fail cleanly,
    stay inside the buffer and do not panic at a position inside it.  No
    lexer that the combinators build over them panics at such a position:
    a call returns, or it loops for ever. *)
Theorem combinators_never_panic :
  forall (discards : bool) (leaf : Lexeme -> Prop) (l : Lexeme),
    (forall l', leaf l' -> fails_clean l' /\ in_bounds l' /\ safe l') ->
    combined discards leaf l ->
    safe l.
Proof.
  intros discards leaf l. apply combined_safe.
Qed.

Lemma combinators_never_panic_witness :
  call (NewStarClosure (NewOptionClosure (NewLiteralLexer "x" "x")))
       7%nat (source_of "xxy") 1
  <> Panic.
Proof.
  apply (@combinators_never_panic true is_terminal
           (NewStarClosure (NewOptionClosure (NewLiteralLexer "x" "x")))
           (fun l' H =>
              conj (proj1 (is_terminal_behaves H))
                   (conj (proj1 (proj2 (is_terminal_behaves H)))
                         (is_terminal_safe H)))
           ltac:(combined_of_terminals)).
  - reflexivity.
  - split; discriminate.
Defined.

(** ** Grouping a concatenation *)

Lemma outline_concat_loop name deps fuel s pos :
  forall children offset,
    outline (concat_loop name deps fuel s pos children offset)
    = concat_outline deps fuel s pos offset.
Proof.
  induction deps as [|dep deps IH]; intros children offset;
    cbn [concat_loop concat_outline].
  - destruct (len children =? 1); reflexivity.
  - destruct (call dep fuel s (int_add pos offset)) as [[[tree [e|]] l]| |];
      cbn [bind outline]; try reflexivity.
    apply IH.
Qed.

Lemma concat_outline_app xs ys fuel s pos :
  forall offset,
    concat_outline (xs ++ ys) fuel s pos offset
    = match concat_outline xs fuel s pos offset with
      | Ret (None, mid) => concat_outline ys fuel s pos mid
      | r => r
      end.
Proof.
  induction xs as [|dep xs IH]; intros offset; cbn [app concat_outline].
  - reflexivity.
  - destruct (call dep fuel s (int_add pos offset)) as [[[tree [e|]] l]| |];
      cbn [bind]; try reflexivity.
    apply IH.
Qed.

Lemma int_add_assoc (a b c : Z) :
  int_add (int_add a b) c = int_add a (int_add b c).
Proof.
  unfold int_add, Int.add. rewrite wrap_add_wrap_l, wrap_add_wrap_r.
  f_equal. lia.
Qed.

(** Children called from [pos] with the offsets counted from [base] do what
    they do called from [pos] plus [base] with the offsets counted from 0. *)
Lemma concat_outline_base deps fuel s pos base :
  forall offset,
    concat_outline deps fuel s pos (int_add base offset)
    = match concat_outline deps fuel s (int_add pos base) offset with
      | Ret (None, total) => Ret (None, int_add base total)
      | r => r
      end.
Proof.
  induction deps as [|dep deps IH]; intros offset; cbn [concat_outline].
  - reflexivity.
  - rewrite <- int_add_assoc.
    destruct (call dep fuel s (int_add (int_add pos base) offset))
      as [[[tree [e|]] l]| |]; cbn [bind]; try reflexivity.
    rewrite int_add_assoc. apply IH.
Qed.

Lemma concat_outline_inner deps fuel s pos mid :
  Int.wrap mid = mid ->
  concat_outline deps fuel s pos mid
  = match concat_outline deps fuel s (int_add pos mid) 0 with
    | Ret (None, total) => Ret (None, int_add mid total)
    | r => r
    end.
Proof.
  intros Hmid. rewrite <- concat_outline_base.
  unfold int_add, Int.add. now rewrite Z.add_0_r, Hmid.
Qed.

(** X17: Grouping the children of a concatenation changes its tree only: two
    groups, each under a concatenation lexer of its own, fail with the same
    error, consume the same length and loop or panic on the same inputs as
    the children in one concatenation. *)
Theorem NewConcatLexer_grouping :
  forall (name name1 name2 name' : string) (xs ys : list Lexeme)
         (fuel : nat) (s : Source) (pos : Z),
    outline (call (NewConcatLexer name [NewConcatLexer name1 xs;
                                        NewConcatLexer name2 ys])
                  fuel s pos)
    = outline (call (NewConcatLexer name' (xs ++ ys)) fuel s pos).
Proof.
  intros name name1 name2 name' xs ys fuel s pos.
  change (outline (concat_loop name [NewConcatLexer name1 xs;
                                     NewConcatLexer name2 ys] fuel s pos [] 0)
          = outline (concat_loop name' (xs ++ ys) fuel s pos [] 0)).
  rewrite !outline_concat_loop, concat_outline_app.
  cbn [concat_outline].
  change (call (NewConcatLexer name1 xs) fuel s (int_add pos 0))
    with (concat_loop name1 xs fuel s (int_add pos 0) [] 0).
  rewrite (@concat_outline_inner xs fuel s pos 0) by reflexivity.
  rewrite <- (outline_concat_loop name1 xs fuel s (int_add pos 0) [] 0).
  destruct (concat_loop name1 xs fuel s (int_add pos 0) [] 0)
    as [[[t1 [e1|]] l1]| |] eqn:E1; cbn [bind outline]; try reflexivity.
  { apply concat_loop_fails_clean in E1. now destruct E1 as [_ ->]. }
  cbv beta iota.
  change (call (NewConcatLexer name2 ys) fuel s (int_add pos (int_add 0 l1)))
    with (concat_loop name2 ys fuel s (int_add pos (int_add 0 l1)) [] 0).
  rewrite (@concat_outline_inner ys fuel s pos (int_add 0 l1))
    by apply wrap_wrap.
  rewrite <- (outline_concat_loop name2 ys fuel s
                (int_add pos (int_add 0 l1)) [] 0).
  destruct (concat_loop name2 ys fuel s (int_add pos (int_add 0 l1)) [] 0)
    as [[[t2 [e2|]] l2]| |] eqn:E2; cbn [bind outline]; try reflexivity.
  apply concat_loop_fails_clean in E2. now destruct E2 as [_ ->].
Qed.

(** ** The facade over combined lexers *)

Lemma Parse_returns_root l fuel content tree err :
  Parse l fuel {| contents := content; read_error := None |} = Ret (tree, err) ->
  exists n, call (root l) fuel {| buf := content |} 0 = Ret (tree, err, n).
Proof.
  rewrite Parse_call. intros H.
  destruct (call (root l) fuel {| buf := content |} 0) as [[[t e] n]| |];
    cbn in H; try discriminate.
  inv H. eauto.
Qed.

(** X18: The tree that [Parse] returns spells a prefix of the input.  When the
    root is built with concatenation, plus, star, optional and alternate
    over lexers that fail cleanly, stay inside the buffer and spell their
    input, a successful parse returns a tree whose raw bytes, read from left
    to right, are the beginning of the bytes read, and a failed parse
    returns no tree. *)
Theorem Parse_tree_spells_prefix :
  forall (leaf : Lexeme -> Prop) (l : Language) (fuel : nat)
         (content : list byte) (tree : option ParseTree) (err : option error),
    (forall l', leaf l' -> fails_clean l' /\ in_bounds l' /\ spells l') ->
    combined false leaf (root l) ->
    len content < Int.half ->
    Parse l fuel {| contents := content; read_error := None |}
    = Ret (tree, err) ->
    match err with
    | None => exists rest, content = yield_of tree ++ rest
    | Some _ => tree = None
    end.
Proof.
  intros leaf l fuel content tree err Hleaf Hroot Hlen H.
  apply Parse_returns_root in H. destruct H as [n H].
  destruct err as [e|].
  - assert (Hclean : fails_clean (root l)).
    { apply (combined_fails_clean (discards := false) (leaf := leaf));
        [|assumption].
      intros l' Hl'. now apply Hleaf. }
    now destruct (Hclean _ _ _ _ _ _ H).
  - assert (Hpos : 0 <= 0 <= len (buf {| buf := content |}))
      by (split; [lia | apply len_nonneg]).
    pose proof (combined_spells Hleaf Hroot) as Hsp.
    rewrite (Hsp fuel {| buf := content |} 0 tree n Hlen Hpos H).
    unfold input_slice. cbn [buf skipn Z.to_nat].
    exists (skipn (Z.to_nat n) content). now rewrite firstn_skipn.
Qed.

Lemma Parse_tree_spells_prefix_witness :
  exists rest,
    list_byte_of_string "xyyz"
    = yield_of
        (Some {| Typ := "c"; Data := [];
                 Children :=
                   [Some {| Typ := "x"; Data := ["x"%byte]; Children := [] |};
                    Some {| Typ := "y+"; Data := [];
                            Children :=
                              [Some {| Typ := "y"; Data := ["y"%byte];
                                       Children := [] |};
                               Some {| Typ := "y"; Data := ["y"%byte];
                                       Children := [] |}] |}] |})
      ++ rest.
Proof.
  apply (@Parse_tree_spells_prefix is_terminal
           {| root := NewConcatLexer "c"
                        [NewLiteralLexer "x" "x";
                         NewPlusClosure (NewLiteralLexer "y" "y")] |}
           2%nat (list_byte_of_string "xyyz") _ None
           is_terminal_behaves
           ltac:(combined_of_terminals)).
  - reflexivity.
  - reflexivity.
Defined.

(** X19: [Parse] does not panic on a root that is safe: when the root is built
    with the combinators over lexers that fail cleanly, stay inside the
    buffer and do not panic inside it, a parse returns (a tree or an error)
    or loops for ever, whether the reading fails or not. *)
Theorem Parse_never_panics :
  forall (discards : bool) (leaf : Lexeme -> Prop) (l : Language) (fuel : nat)
         (source : Reader),
    (forall l', leaf l' -> fails_clean l' /\ in_bounds l' /\ safe l') ->
    combined discards leaf (root l) ->
    len (contents source) + 10 < Int.half ->
    Parse l fuel source <> Panic.
Proof.
  intros discards leaf l fuel [content [e|]] Hleaf Hroot Hlen;
    [discriminate|].
  rewrite Parse_call. cbn [contents] in Hlen.
  assert (Hpos : 0 <= 0 <= len (buf {| buf := content |}))
    by (split; [lia | apply len_nonneg]).
  pose proof (combined_safe Hleaf Hroot) as Hroot_safe.
  pose proof (Hroot_safe fuel {| buf := content |} 0 Hlen Hpos) as Hsafe.
  destruct (call (root l) fuel {| buf := content |} 0) as [[[t e] n]| |];
    cbn; (discriminate || congruence).
Qed.

Lemma Parse_never_panics_witness :
  Parse {| root := NewStarClosure (NewDiscardLexer (NewLiteralLexer "x" "x")) |}
        9%nat (strings_NewReader "xxy")
  <> Panic.
Proof.
  apply (@Parse_never_panics true is_terminal
           {| root := NewStarClosure (NewDiscardLexer (NewLiteralLexer "x" "x")) |}
           9%nat (strings_NewReader "xxy")
           (fun l' H =>
              conj (proj1 (is_terminal_behaves H))
                   (conj (proj1 (proj2 (is_terminal_behaves H)))
                         (is_terminal_safe H)))
           ltac:(combined_of_terminals)).
  reflexivity.
Defined.
